(** * Bitcoin node crawler: wire codec and crawl scheduler

    A shallow embedding of [backend/bitcoin_protocol.py] and of the
    scheduler of [backend/crawler.py].  Python [bytes] are lists of
    [Byte.byte]; Python integers are [Z]; offsets and lengths are [nat];
    the three endpoint sets of the crawler are [gset]s; exceptions are an
    explicit [result] type, so that "never raises" is a statement about
    the embedded function and not a property of the host logic. *)

From Stdlib Require Import ZArith NArith Lia List String Ascii.
From Stdlib.Strings Require Import Byte.
From stdpp Require Import base tactics option list numbers strings pretty gmap sets.

Local Open Scope Z_scope.

(** ** Exceptions *)

(** The exception classes the codec can meet.  [TypeError] stands for any
    class that the handlers of the program do not name. *)
Inductive exn := ValueError | StructError | IndexError | TypeError.

Inductive result (A : Type) :=
  | Ok (a : A)
  | Raise (e : exn).
Arguments Ok {A} a.
Arguments Raise {A} e.

Definition result_bind {A B} (f : A → result B) (m : result A) : result B :=
  match m with
  | Ok a => f a
  | Raise e => Raise e
  end.

#[export] Instance result_ret : MRet result := λ A a, Ok a.
#[export] Instance result_mbind : MBind result := λ A B f m, result_bind f m.

(** ** Bytes *)

Abbreviation bytes := (list byte).

Definition byte_val (b : byte) : Z := Z.of_N (Byte.to_N b).

Definition byte_of_Z (z : Z) : byte :=
  match Byte.of_N (Z.to_N (z mod 256)) with
  | Some b => b
  | None => x00
  end.

(** Python's [data[a:b]] for [0 <= a]; an out-of-range slice is
    truncated, never an error. *)
Definition slice (a b : nat) (data : bytes) : bytes :=
  take (b - a) (drop a data).

(** ** [struct.pack] / [struct.unpack] on the formats the program uses *)

Fixpoint le_bytes (w : nat) (v : Z) : bytes :=
  match w with
  | O => []
  | S w' => byte_of_Z v :: le_bytes w' (v / 256)
  end.

Fixpoint le_value (bs : bytes) : Z :=
  match bs with
  | [] => 0
  | b :: bs' => byte_val b + 256 * le_value bs'
  end.

(** [struct.pack('<B' | '<H' | '<I' | '<Q', v)] with [w] = 1, 2, 4, 8:
    [struct.error] when [v] does not fit. *)
Definition pack_le (w : nat) (v : Z) : result bytes :=
  if (0 <=? v) && (v <? 256 ^ Z.of_nat w) then Ok (le_bytes w v)
  else Raise StructError.

(** [struct.unpack(fmt, bs)[0]]: [struct.error] unless [bs] has exactly
    the size of the format. *)
Definition unpack_le (w : nat) (bs : bytes) : result Z :=
  if Nat.eqb (length bs) w then Ok (le_value bs) else Raise StructError.

Definition unpack_be (w : nat) (bs : bytes) : result Z :=
  if Nat.eqb (length bs) w then Ok (le_value (rev bs)) else Raise StructError.

(** ** Var-ints *)

Definition varint_encode (value : Z) : result bytes :=
  if value <? 0xFD then pack_le 1 value
  else if value <=? 0xFFFF then
    t ← pack_le 1 0xFD; v ← pack_le 2 value; Ok (t ++ v)
  else if value <=? 0xFFFFFFFF then
    t ← pack_le 1 0xFE; v ← pack_le 4 value; Ok (t ++ v)
  else
    t ← pack_le 1 0xFF; v ← pack_le 8 value; Ok (t ++ v).

Definition varint_decode (data : bytes) (offset : nat) : result (Z * nat) :=
  if (length data <=? offset)%nat then Raise ValueError
  else
    match data !! offset with
    | None => Raise IndexError
    | Some b =>
      let first_byte := byte_val b in
      if first_byte <? 0xFD then Ok (first_byte, (offset + 1)%nat)
      else if first_byte =? 0xFD then
        if (length data <? offset + 3)%nat then Raise ValueError
        else
          value ← unpack_le 2 (slice (offset + 1) (offset + 3) data);
          Ok (value, (offset + 3)%nat)
      else if first_byte =? 0xFE then
        if (length data <? offset + 5)%nat then Raise ValueError
        else
          value ← unpack_le 4 (slice (offset + 1) (offset + 5) data);
          Ok (value, (offset + 5)%nat)
      else
        if (length data <? offset + 9)%nat then Raise ValueError
        else
          value ← unpack_le 8 (slice (offset + 1) (offset + 9) data);
          Ok (value, (offset + 9)%nat)
    end.

(** ** SHA-256 ([hashlib.sha256]), after FIPS 180-4

    The program calls the library hash; the checksum of a frame is the
    first four bytes of the double hash, so the embedding carries the
    hash function itself.  32-bit words are [Z] reduced modulo [2^32]. *)

Module SHA256.

Definition mask32 (x : Z) : Z := x mod 2 ^ 32.

Definition add32 (x y : Z) : Z := mask32 (x + y).

Definition rotr (n x : Z) : Z :=
  mask32 (Z.lor (Z.shiftr x n) (Z.shiftl x (32 - n))).

Definition not32 (x : Z) : Z := Z.lxor x 0xffffffff.

Definition Ch (x y z : Z) : Z :=
  Z.lxor (Z.land x y) (Z.land (not32 x) z).

Definition Maj (x y z : Z) : Z :=
  Z.lxor (Z.lxor (Z.land x y) (Z.land x z)) (Z.land y z).

Definition Sigma0 (x : Z) : Z := Z.lxor (Z.lxor (rotr 2 x) (rotr 13 x)) (rotr 22 x).
Definition Sigma1 (x : Z) : Z := Z.lxor (Z.lxor (rotr 6 x) (rotr 11 x)) (rotr 25 x).
Definition sigma0 (x : Z) : Z := Z.lxor (Z.lxor (rotr 7 x) (rotr 18 x)) (Z.shiftr x 3).
Definition sigma1 (x : Z) : Z := Z.lxor (Z.lxor (rotr 17 x) (rotr 19 x)) (Z.shiftr x 10).

(** The constants, by their definition in the standard: the first 32
    bits of the fractional parts of the cube roots (for [K]) and of the
    square roots (for [H0]) of the first primes. *)
Definition is_prime (n : nat) : bool :=
  forallb (λ d, negb (n mod d =? 0)%nat) (seq 2 (n - 2)).

Definition first_primes (n : nat) : list Z :=
  map Z.of_nat (take n (filter (λ p, is_prime p = true) (seq 2 400))).

(** The largest [r] below [2^bits] with [r^k <= n], bit by bit. *)
Fixpoint root (k n : Z) (bits : nat) (r : Z) : Z :=
  match bits with
  | O => r
  | S bits' =>
    let r' := r + 2 ^ Z.of_nat bits' in
    if r' ^ k <=? n then root k n bits' r' else root k n bits' r
  end.

Definition frac32 (k p : Z) : Z :=
  mask32 (root k (p * 2 ^ (32 * k)) 40 0).

Definition K : list Z :=
  Eval vm_compute in map (frac32 3) (first_primes 64).

Record state := State { ha : Z; hb : Z; hc : Z; hd : Z; he : Z; hf : Z; hg : Z; hh : Z }.

Definition H0 : state :=
  Eval vm_compute in
    match map (frac32 2) (first_primes 8) with
    | [a; b; c; d; e; f; g; h] => State a b c d e f g h
    | _ => State 0 0 0 0 0 0 0 0
    end.

(** Big-endian 32-bit words of a block. *)
Fixpoint words (n : nat) (bs : bytes) : list Z :=
  match n with
  | O => []
  | S n' => le_value (rev (take 4 bs)) :: words n' (drop 4 bs)
  end.

(** Message schedule, most recent word first: [w] is
    [W(t-1); W(t-2); ...]. *)
Fixpoint extend (n : nat) (w : list Z) : list Z :=
  match n with
  | O => w
  | S n' =>
    let x := add32 (add32 (sigma1 (nth 1 w 0)) (nth 6 w 0))
                   (add32 (sigma0 (nth 14 w 0)) (nth 15 w 0)) in
    extend n' (x :: w)
  end.

Definition schedule (block : bytes) : list Z :=
  rev (extend 48 (rev (words 16 block))).

Definition round (s : state) (kw : Z * Z) : state :=
  let t1 := add32 (add32 (add32 (hh s) (Sigma1 (he s))) (Ch (he s) (hf s) (hg s)))
                  (add32 (fst kw) (snd kw)) in
  let t2 := add32 (Sigma0 (ha s)) (Maj (ha s) (hb s) (hc s)) in
  State (add32 t1 t2) (ha s) (hb s) (hc s) (add32 (hd s) t1) (he s) (hf s) (hg s).

Definition compress (h : state) (block : bytes) : state :=
  let s := fold_left round (combine K (schedule block)) h in
  State (add32 (ha h) (ha s)) (add32 (hb h) (hb s)) (add32 (hc h) (hc s))
        (add32 (hd h) (hd s)) (add32 (he h) (he s)) (add32 (hf h) (hf s))
        (add32 (hg h) (hg s)) (add32 (hh h) (hh s)).

Definition pad (msg : bytes) : bytes :=
  let n := length msg in
  let k := ((64 - (n + 9) mod 64) mod 64)%nat in
  msg ++ [x80] ++ repeat x00 k ++ rev (le_bytes 8 (8 * Z.of_nat n)).

Fixpoint blocks (n : nat) (data : bytes) (h : state) : state :=
  match n with
  | O => h
  | S n' => blocks n' (drop 64 data) (compress h (take 64 data))
  end.

Definition be32 (w : Z) : bytes := rev (le_bytes 4 w).

Definition digest_bytes (s : state) : bytes :=
  be32 (ha s) ++ be32 (hb s) ++ be32 (hc s) ++ be32 (hd s) ++
  be32 (he s) ++ be32 (hf s) ++ be32 (hg s) ++ be32 (hh s).

(** [hashlib.sha256(msg).digest()] *)
Definition digest (msg : bytes) : bytes :=
  let p := pad msg in
  digest_bytes (blocks (length p / 64) p H0).

End SHA256.

(** ** Frames *)

#[export] Instance byte_eq_dec : EqDecision byte := Byte.byte_eq_dec.

Definition MAINNET_MAGIC : Z := 0xD9B4BEF9.
Definition TESTNET_MAGIC : Z := 0x0709110B.
Definition REGTEST_MAGIC : Z := 0xDAB5BFFA.

Definition MSG_VERSION : bytes := [x76; x65; x72; x73; x69; x6f; x6e; x00; x00; x00; x00; x00].
Definition MSG_VERACK : bytes := [x76; x65; x72; x61; x63; x6b; x00; x00; x00; x00; x00; x00].
Definition MSG_GETADDR : bytes := [x67; x65; x74; x61; x64; x64; x72; x00; x00; x00; x00; x00].
Definition MSG_ADDR : bytes := [x61; x64; x64; x72; x00; x00; x00; x00; x00; x00; x00; x00].

(** [bs.ljust(n, b'\x00')] *)
Definition ljust (n : nat) (bs : bytes) : bytes :=
  bs ++ repeat x00 (n - length bs).

(** [bs.rstrip(b'\x00')] *)
Fixpoint rstrip (bs : bytes) : bytes :=
  match bs with
  | [] => []
  | b :: bs' =>
    match rstrip bs' with
    | [] => if decide (b = x00) then [] else [b]
    | r => b :: r
    end
  end.

(** [hashlib.sha256(hashlib.sha256(payload).digest()).digest()[:4]] *)
Definition checksum4 (payload : bytes) : bytes :=
  take 4 (SHA256.digest (SHA256.digest payload)).

Definition create_message (command payload : bytes) (magic : Z) : result bytes :=
  let command_padded := ljust 12 (take 12 command) in
  let length_ := Z.of_nat (length payload) in
  let checksum := checksum4 payload in
  m ← pack_le 4 magic;
  l ← pack_le 4 length_;
  Ok (m ++ command_padded ++ l ++ checksum ++ payload).

Definition create_verack_message : result bytes :=
  create_message MSG_VERACK [] MAINNET_MAGIC.

Definition create_getaddr_message : result bytes :=
  create_message MSG_GETADDR [] MAINNET_MAGIC.

Definition MAX_PAYLOAD : Z := 2 * 1024 * 1024.

(** [parse_message]: [Ok None] is Python's [None]; [Raise] would be an
    exception escaping the function. *)
Definition parse_message (data : bytes) : result (option (bytes * bytes)) :=
  if (length data <? 24)%nat then Ok None
  else
    magic ← unpack_le 4 (slice 0 4 data);
    if negb (magic =? MAINNET_MAGIC) then Ok None
    else
      let command := rstrip (slice 4 16 data) in
      length_ ← unpack_le 4 (slice 16 20 data);
      let checksum := slice 20 24 data in
      if MAX_PAYLOAD <? length_ then Ok None
      else if Z.of_nat (length data) <? 24 + length_ then Ok None
      else
        let payload := slice 24 (24 + Z.to_nat length_) data in
        let calculated_checksum := checksum4 payload in
        if negb (bool_decide (calculated_checksum = checksum)) then Ok None
        else Ok (Some (command, payload)).

(** The way every call site decodes a frame inside a receive buffer
    (the drain loop of [connect_to_node]): the buffer is sliced at the
    offset, and the offset then advances by [24 + len(payload)]. *)
Definition decode_frame (data : bytes) (offset : nat)
    : result (option (bytes * bytes * nat)) :=
  r ← parse_message (drop offset data);
  match r with
  | Some (cmd, payload) => Ok (Some (cmd, payload, (offset + (24 + length payload))%nat))
  | None => Ok None
  end.

(** The header fields of a buffer of at least 24 bytes, as
    [parse_message] reads them. *)
Definition frame_magic (data : bytes) : Z := le_value (slice 0 4 data).
Definition frame_command (data : bytes) : bytes := rstrip (slice 4 16 data).
Definition frame_length (data : bytes) : Z := le_value (slice 16 20 data).
Definition frame_checksum (data : bytes) : bytes := slice 20 24 data.
Definition frame_payload (data : bytes) : bytes :=
  slice 24 (24 + Z.to_nat (frame_length data)) data.

(** The two failure outcomes that a frame decoder could tell apart. *)
Inductive failure_kind := Incomplete | Malformed.

(** ** [addr] payloads *)

(** One parsed address: [(ip, port, timestamp)]. *)
Definition addr : Type := string * Z * Z.

(** [str(b)] for a byte. *)
Definition str_byte (b : byte) : string := pretty (Byte.to_N b).

(** ['.'.join(str(b) for b in bs)] *)
Definition dotted (bs : bytes) : string :=
  String.concat "." (map str_byte bs).

(** The test of line 125: the first twelve bytes are zero and the next
    two are [FF FF]. *)
Definition ip_prefix_ok (ip_bytes : bytes) : bool :=
  bool_decide (take 12 ip_bytes = repeat x00 12)
  && bool_decide (slice 12 14 ip_bytes = [xff; xff]).

(** The [for _ in range(n)] loop of [parse_addr_message], with its two
    loop variables; [break] returns the accumulator. *)
Fixpoint addr_loop (n : nat) (data : bytes) (offset : nat) (addresses : list addr)
    : result (list addr) :=
  match n with
  | O => Ok addresses
  | S n' =>
    if (length data <? offset + 30)%nat then Ok addresses
    else
      timestamp ← unpack_le 4 (slice offset (offset + 4) data);
      let offset := (offset + 4)%nat in
      services ← unpack_le 8 (slice offset (offset + 8) data);
      let offset := (offset + 8)%nat in
      let ip_bytes := slice offset (offset + 16) data in
      let offset := (offset + 16)%nat in
      if ip_prefix_ok ip_bytes then
        let ip := dotted (slice 14 18 ip_bytes) in
        port ← unpack_be 2 (slice offset (offset + 2) data);
        let offset := (offset + 2)%nat in
        addr_loop n' data offset (addresses ++ [(ip, port, timestamp)])
      else
        let offset := (offset + 2)%nat in
        addr_loop n' data offset addresses
  end.

(** The body of the [try] block. *)
Definition parse_addr_body (data : bytes) : result (list addr) :=
  '(count, offset) ← varint_decode data 0;
  addr_loop (Z.to_nat (Z.min count 1000)) data offset [].

(** [parse_addr_message]: the handler names [ValueError], [struct.error]
    and [IndexError]; anything else would propagate. *)
Definition parse_addr_message (data : bytes) : result (list addr) :=
  if (length data <? 1)%nat then Ok []
  else
    match parse_addr_body data with
    | Ok addresses => Ok addresses
    | Raise ValueError | Raise StructError | Raise IndexError => Ok []
    | Raise e => Raise e
    end.

(** Length of the encoding of [v], when [varint_encode] returns. *)
Definition encoded_length (v : Z) : option nat :=
  match varint_encode v with
  | Ok enc => Some (length enc)
  | Raise _ => None
  end.

(** Scenario S4: an [addr] payload of two records, the first carrying the
    IPv4-mapped address [::ffff:10.0.0.1] (ten zero bytes, [FF FF], then
    the four address bytes, as [encode_ip] writes it) with port 8333, the
    second a pure IPv6 address. *)
Definition s4_ipv4_record : bytes :=
  [x78; x56; x34; x12] ++ [x01; x00; x00; x00; x00; x00; x00; x00]
  ++ repeat x00 10 ++ [xff; xff; x0a; x00; x00; x01] ++ [x20; x8d].

Definition s4_ipv6_record : bytes :=
  [x78; x56; x34; x12] ++ [x01; x00; x00; x00; x00; x00; x00; x00]
  ++ [x20; x01; x0d; xb8] ++ repeat x00 11 ++ [x01] ++ [x20; x8d].

Definition s4_payload : bytes := [x02] ++ s4_ipv4_record ++ s4_ipv6_record.

(** * The crawler ([backend/crawler.py]) *)

(** ** The [ipaddress] library

    [is_private_ip] calls the standard library: [ipaddress.ip_address]
    and three properties of the address object.  The library is an
    interface here; every theorem on the crawler holds for any
    implementation of it.  [ip_address ip = None] is the [ValueError] of
    an unparseable string. *)
Class IpAddress := {
  ip_obj : Type;
  ip_address : string → option ip_obj;
  is_private : ip_obj → bool;
  is_loopback : ip_obj → bool;
  is_link_local : ip_obj → bool
}.

Definition is_private_ip `{IpAddress} (ip : string) : bool :=
  match ip_address ip with
  | Some ip_obj => is_private ip_obj || is_loopback ip_obj || is_link_local ip_obj
  | None => true
  end.

(** ** Crawler state *)

Definition endpoint : Type := string * Z.

(** The record a successful session returns.  The three fields that
    [_parse_version_payload] derives from the peer's [version] payload
    are kept as that payload. *)
Record node_info := NodeInfo {
  ni_ip : string;
  ni_port : Z;
  ni_version_payload : bytes;
  ni_peers_discovered : nat
}.

Record crawler := Crawler {
  max_concurrent : Z;
  discovered_nodes : gset endpoint;
  crawled_nodes : gset endpoint;
  node_data : list node_info;
  failed_nodes : gset endpoint
}.

(** [__init__]: [asyncio.Semaphore] raises [ValueError] on a negative
    initial value. *)
Definition BitcoinNodeCrawler (max_concurrent : Z) : result crawler :=
  if max_concurrent <? 0 then Raise ValueError
  else Ok (Crawler max_concurrent ∅ ∅ [] ∅).

Definition add_discovered (c : crawler) (ep : endpoint) : crawler :=
  Crawler (max_concurrent c) ({[ep]} ∪ discovered_nodes c) (crawled_nodes c)
          (node_data c) (failed_nodes c).

Definition add_crawled (c : crawler) (ep : endpoint) : crawler :=
  Crawler (max_concurrent c) (discovered_nodes c) ({[ep]} ∪ crawled_nodes c)
          (node_data c) (failed_nodes c).

Definition add_failed (c : crawler) (ep : endpoint) : crawler :=
  Crawler (max_concurrent c) (discovered_nodes c) (crawled_nodes c)
          (node_data c) ({[ep]} ∪ failed_nodes c).

Definition extend_node_data (c : crawler) (results : list node_info) : crawler :=
  Crawler (max_concurrent c) (discovered_nodes c) (crawled_nodes c)
          (node_data c ++ results) (failed_nodes c).

(** ** One session: what the network does

    A session is a function of what the remote end does.  [ReadData []]
    is end of file; a failed write inside the exchange has the effect of
    [ReadError] on the read that follows it. *)
Inductive read_result :=
  | ReadTimeout
  | ReadError
  | ReadData (chunk : bytes).

Record transcript := Transcript {
  connect_ok : bool;          (* [open_connection] and the first write *)
  version_response : read_result;
  verack_response : read_result;
  addr_reads : list read_result;  (* the reads of the drain loop, in order *)
  close_ok : bool             (* [writer.close()] / [wait_closed()] *)
}.

Definition CMD_VERSION : bytes := [x76; x65; x72; x73; x69; x6f; x6e].
Definition CMD_VERACK : bytes := [x76; x65; x72; x61; x63; x6b].
Definition CMD_ADDR : bytes := [x61; x64; x64; x72].

(** [new_peers.extend(peers)] under [if peers:]. *)
Definition extend_if (new_peers peers : list addr) : list addr :=
  match peers with
  | [] => new_peers
  | _ => new_peers ++ peers
  end.

(** The inner [while offset < len(addr_data)] of the drain loop.  Every
    turn moves the offset by at least 24, so [length addr_data] turns are
    enough.  The result is [new_peers] as the loop leaves it, and the
    exception that ended it, if one did. *)
Fixpoint scan_frames (fuel : nat) (addr_data : bytes) (offset : nat)
    (new_peers : list addr) : list addr * option exn :=
  match fuel with
  | O => (new_peers, None)
  | S fuel' =>
    if (offset <? length addr_data)%nat then
      match parse_message (drop offset addr_data) with
      | Raise e => (new_peers, Some e)
      | Ok None => (new_peers, None)
      | Ok (Some (cmd, payload)) =>
        if bool_decide (cmd = CMD_ADDR) then
          match parse_addr_message payload with
          | Raise e => (new_peers, Some e)
          | Ok peers =>
            scan_frames fuel' addr_data (offset + (24 + length payload))
                        (extend_if new_peers peers)
          end
        else
          scan_frames fuel' addr_data (offset + (24 + length payload)) new_peers
      end
    else (new_peers, None)
  end.

(** The [while attempts < max_attempts] loop; [remaining] is
    [max_attempts - attempts].  A read that the transcript does not
    list times out. *)
Fixpoint drain (remaining attempts : nat) (reads : list read_result)
    (addr_data : bytes) (new_peers : list addr) : bytes * list addr :=
  match remaining with
  | O => (addr_data, new_peers)
  | S remaining' =>
    match hd ReadTimeout reads with
    | ReadTimeout => drain remaining' (S attempts) (tl reads) addr_data new_peers
    | ReadError => (addr_data, new_peers)
    | ReadData [] => drain remaining' (S attempts) (tl reads) addr_data new_peers
    | ReadData chunk =>
      let addr_data := addr_data ++ chunk in
      match scan_frames (length addr_data) addr_data 0 new_peers with
      | (new_peers, Some _) => (addr_data, new_peers)
      | (new_peers, None) =>
        if negb (bool_decide (new_peers = [])) && (2 <=? attempts)%nat
        then (addr_data, new_peers)
        else drain remaining' (S attempts) (tl reads) addr_data new_peers
      end
    end
  end.

(** The salvage pass over the offsets [0, 24, 48]: the peers of the first
    [addr] frame that yields some. *)
Fixpoint salvage (offsets : list nat) (addr_data : bytes) : result (list addr) :=
  match offsets with
  | [] => Ok []
  | start_offset :: offsets' =>
    if (start_offset <? length addr_data)%nat then
      addr_msg ← parse_message (drop start_offset addr_data);
      match addr_msg with
      | Some (cmd, payload) =>
        if bool_decide (cmd = CMD_ADDR) then
          peers ← parse_addr_message payload;
          match peers with
          | [] => salvage offsets' addr_data
          | _ => Ok peers
          end
        else salvage offsets' addr_data
      | None => salvage offsets' addr_data
      end
    else salvage offsets' addr_data
  end.

(** One handshake step: read a frame and require a command. *)
Definition expect (command : bytes) (r : read_result) : option bytes :=
  match r with
  | ReadTimeout | ReadError => None
  | ReadData [] => None
  | ReadData response =>
    match parse_message response with
    | Ok (Some (cmd, payload)) =>
      if bool_decide (cmd = command) then Some payload else None
    | Ok None => None
    | Raise _ => None
    end
  end.

(** The inner [try] block of [connect_to_node] up to the point where the
    connection is closed: [None] for every early [return None], otherwise
    the [version] payload of the peer and [new_peers]. *)
Definition exchange (t : transcript) : option (bytes * list addr) :=
  match expect CMD_VERSION (version_response t) with
  | None => None
  | Some version_payload =>
    match expect CMD_VERACK (verack_response t) with
    | None => None
    | Some _ =>
      let '(addr_data, new_peers) := drain 8 0 (addr_reads t) [] [] in
      if negb (bool_decide (addr_data = [])) && bool_decide (new_peers = []) then
        match salvage [0; 24; 48]%nat addr_data with
        | Ok peers => Some (version_payload, new_peers ++ peers)
        | Raise _ => None
        end
      else Some (version_payload, new_peers)
    end
  end.

(** Lines 172-175: the peers of a session are offered to [discovered]. *)
Definition offer `{IpAddress} (c : crawler) (peer : addr) : crawler :=
  let '(peer_ip, peer_port, _) := peer in
  if negb (is_private_ip peer_ip) then
    if bool_decide ((peer_ip, peer_port) ∉ discovered_nodes c)
       && bool_decide ((peer_ip, peer_port) ∉ crawled_nodes c)
    then add_discovered c (peer_ip, peer_port)
    else c
  else c.

(** [connect_to_node] runs in two uninterrupted stretches.  The first
    (lines 41-44) ends at the first network wait: the endpoint is put in
    [crawled], unless it is there already, in which case the task is
    over. *)
Definition session_begin (c : crawler) (ep : endpoint) : crawler * bool :=
  if bool_decide (ep ∈ crawled_nodes c) then (c, false)
  else (add_crawled c ep, true).

(** The value the task returns, which the state does not influence. *)
Definition session_return (ep : endpoint) (t : transcript) : option node_info :=
  if negb (connect_ok t) then None
  else
    match exchange t with
    | Some (version_payload, new_peers) =>
      if close_ok t
      then Some (NodeInfo (fst ep) (snd ep) version_payload (length new_peers))
      else None
    | None => None
    end.

(** The second stretch: the effect on the sets once the network exchange
    is over.  An error of [open_connection], or of a [close] (which then
    escapes the inner handlers), lands in the outer handlers, which add
    the endpoint to [failed]. *)
Definition session_end `{IpAddress} (c : crawler) (ep : endpoint) (t : transcript) : crawler :=
  if negb (connect_ok t) then add_failed c ep
  else if negb (close_ok t) then add_failed c ep
  else
    match exchange t with
    | Some (_, new_peers) => fold_left offer new_peers c
    | None => c
    end.

(** ** The scheduler *)

(** What the crawl does not decide: the iteration order of a Python set
    ([listing]), the order in which the sessions of a batch finish
    ([completion]), both per iteration, and the network. *)
Record environment := Environment {
  listing : nat → list endpoint → list endpoint;
  completion : nat → list endpoint → list endpoint;
  network : endpoint → transcript
}.

(** An environment is well formed when its orders are orders of the
    lists they are given. *)
Definition environment_wf (env : environment) : Prop :=
  ∀ i l, listing env i l ≡ₚ l ∧ completion env i l ≡ₚ l.

(** [l[:n]] for a Python integer [n]. *)
Definition py_take {A} (n : Z) (l : list A) : list A :=
  if 0 <=? n then take (Z.to_nat n) l
  else take (length l - Z.to_nat (- n)) l.

(** The seed phase. *)
Definition seed `{IpAddress} (c : crawler) (s : endpoint) : crawler :=
  if negb (is_private_ip (fst s)) then add_discovered c s else c.

(** The first stretch of every task of the batch, in task order; the
    tasks that go on to the network are returned with the state. *)
Fixpoint begin_batch (c : crawler) (to_crawl : list endpoint) : crawler * list endpoint :=
  match to_crawl with
  | [] => (c, [])
  | ep :: rest =>
    let '(c1, started) := session_begin c ep in
    let '(c2, begun) := begin_batch c1 rest in
    (c2, if started then ep :: begun else begun)
  end.

Definition select (env : environment) (iteration : nat) (c : crawler) : list endpoint :=
  py_take (max_concurrent c)
    (listing env iteration (elements (discovered_nodes c ∖ crawled_nodes c))).

(** One pass of the body of the [while] loop, for a non-empty
    [to_crawl]: [asyncio.gather] over the batch, then the results are
    appended in task order. *)
Definition run_batch `{IpAddress} (env : environment) (iteration : nat)
    (c : crawler) (to_crawl : list endpoint) : crawler :=
  let '(c1, begun) := begin_batch c to_crawl in
  let c2 := fold_left (λ c ep, session_end c ep (network env ep))
                      (completion env iteration begun) c1 in
  extend_node_data c2 (omap (λ ep, session_return ep (network env ep)) begun).

Definition loop_condition (c : crawler) (max_nodes : Z) : bool :=
  (Z.of_nat (size (crawled_nodes c)) <? max_nodes)
  && negb (bool_decide (discovered_nodes c = ∅)).

(** The [while] loop.  The result lists the state at every iteration
    boundary, the state the loop is entered with first and the final one
    last; [None] is reserved for a loop that [fuel] passes do not end.
    Logging, the sleep between passes and [update_viz_callback], which
    reads [node_data] and touches none of the three sets, are left out. *)
Fixpoint crawl_loop `{IpAddress} (fuel : nat) (env : environment) (iteration : nat)
    (max_nodes : Z) (c : crawler) : option (list crawler) :=
  if loop_condition c max_nodes then
    let iteration := S iteration in
    match select env iteration c with
    | [] => Some [c]
    | to_crawl =>
      match fuel with
      | O => None
      | S fuel' =>
        trace ← crawl_loop fuel' env iteration max_nodes (run_batch env iteration c to_crawl);
        Some (c :: trace)
      end
    end
  else Some [c].

(** [crawl(seed_nodes, max_nodes)] on a crawler [c].  Every pass of the
    loop that runs a batch puts at least one endpoint in [crawled], so
    [max_nodes] passes are enough. *)
Definition crawl `{IpAddress} (env : environment) (c : crawler)
    (seed_nodes : list endpoint) (max_nodes : Z) : option (list crawler) :=
  crawl_loop (Z.to_nat max_nodes) env 0 max_nodes (fold_left seed seed_nodes c).

(** ** An implementation of the library interface, for evaluation

    IPv4 dotted quads only, with the private, loopback and link-local
    ranges of CPython's [ipaddress]; every other string is unparseable.
    The theorems do not depend on it: it lets the crawler be run on
    concrete inputs. *)
Module IPv4.

Definition digit (a : ascii) : option N :=
  let n := N_of_ascii a in
  if ((48 <=? n) && (n <=? 57))%N then Some (n - 48)%N else None.

Fixpoint digits (s : string) (acc : N) : option N :=
  match s with
  | EmptyString => Some acc
  | String a s' =>
    match digit a with
    | Some d => digits s' (10 * acc + d)%N
    | None => None
    end
  end.

(** One decimal octet: one to three digits, no leading zero, at most 255. *)
Definition octet (s : string) : option N :=
  match s with
  | EmptyString => None
  | String a s' =>
    if Ascii.eqb a "0" && negb (String.eqb s' "") then None
    else if (3 <? String.length s)%nat then None
    else
      match digits s 0 with
      | Some v => if (v <=? 255)%N then Some v else None
      | None => None
      end
  end.

Fixpoint split_dots (s : string) : list string :=
  match s with
  | EmptyString => [EmptyString]
  | String a s' =>
    if Ascii.eqb a "." then EmptyString :: split_dots s'
    else
      match split_dots s' with
      | [] => [String a EmptyString]
      | h :: t => String a h :: t
      end
  end.

Definition parse (s : string) : option (N * N * N * N) :=
  match split_dots s with
  | [a; b; c; d] =>
    match octet a, octet b, octet c, octet d with
    | Some a, Some b, Some c, Some d => Some (a, b, c, d)
    | _, _, _, _ => None
    end
  | _ => None
  end.

Definition loopback (ip : N * N * N * N) : bool :=
  let '(a, _, _, _) := ip in (a =? 127)%N.

Definition link_local (ip : N * N * N * N) : bool :=
  let '(a, b, _, _) := ip in ((a =? 169) && (b =? 254))%N.

Definition private (ip : N * N * N * N) : bool :=
  let '(a, b, c, d) := ip in
  ((a =? 0) || (a =? 10) || (a =? 127)
   || ((a =? 169) && (b =? 254))
   || ((a =? 172) && (16 <=? b) && (b <=? 31))
   || ((a =? 192) && (b =? 0) && (c =? 0) && (d <=? 7))
   || ((a =? 192) && (b =? 0) && (c =? 0) && ((d =? 170) || (d =? 171)))
   || ((a =? 192) && (b =? 0) && (c =? 2))
   || ((a =? 192) && (b =? 168))
   || ((a =? 198) && ((b =? 18) || (b =? 19)))
   || ((a =? 198) && (b =? 51) && (c =? 100))
   || ((a =? 203) && (b =? 0) && (c =? 113))
   || (240 <=? a))%N.

Definition library : IpAddress :=
  {| ip_obj := N * N * N * N;
     ip_address := parse;
     is_private := private;
     is_loopback := loopback;
     is_link_local := link_local |}.

End IPv4.

(** Transcripts and environments used in the examples. *)
Definition refused : transcript := Transcript false ReadTimeout ReadTimeout [] true.

Definition tasks_in_order (net : endpoint → transcript) : environment :=
  Environment (λ _ l, l) (λ _ l, l) net.

(** ** Invariants of the scheduler *)

(** The registry as the program keeps it: an endpoint that is selected is
    added to [crawled] and stays in [discovered]. *)
Definition registry_inv (c : crawler) : Prop :=
  failed_nodes c ⊆ crawled_nodes c ∧ crawled_nodes c ⊆ discovered_nodes c.

(** Every discovered address parses and is neither private, loopback nor
    link-local. *)
Definition routable `{IpAddress} (ip : string) : Prop :=
  ∃ o, ip_address ip = Some o
       ∧ is_private o = false ∧ is_loopback o = false ∧ is_link_local o = false.

Definition routable_only `{IpAddress} (c : crawler) : Prop :=
  ∀ ep, ep ∈ discovered_nodes c → routable (fst ep).

(** What a step may do to the registry: it keeps the limit, it only adds
    to [discovered], and what it adds is routable. *)
Definition grows `{IpAddress} (c c' : crawler) : Prop :=
  max_concurrent c' = max_concurrent c
  ∧ discovered_nodes c ⊆ discovered_nodes c'
  ∧ (routable_only c → routable_only c').

(** What holds at every iteration boundary, for a bound [B] on the size
    of [crawled]. *)
Definition boundary `{IpAddress} (B : Z) (c : crawler) : Prop :=
  registry_inv c ∧ routable_only c ∧ Z.of_nat (size (crawled_nodes c)) ≤ B.

(** A crawl of one routable seed whose connection is refused. *)
Definition refused_crawl : option (list crawler) :=
  match BitcoinNodeCrawler 500 with
  | Ok c =>
    @crawl IPv4.library (tasks_in_order (λ _, refused)) c [("1.2.3.4"%string, 8333)] 1000
  | Raise _ => None
  end.

(** A crawl with [max_concurrent = 0] and [max_nodes = 0]. *)
Definition empty_crawl : option (list crawler) :=
  match BitcoinNodeCrawler 0 with
  | Ok c => @crawl IPv4.library (tasks_in_order (λ _, refused)) c [] 0
  | Raise _ => None
  end.

(** ** Reading [parse_addr_message] record by record

    What lines 117-134 make of one 30-byte record [r]: the test of the
    address prefix, and the tuple that is appended when it passes. *)
Definition record_ok (r : bytes) : bool := ip_prefix_ok (slice 12 28 r).

Definition record_addr (r : bytes) : addr :=
  (dotted (slice 14 18 (slice 12 28 r)),
   le_value (rev (slice 28 30 r)),
   le_value (slice 0 4 r)).

(** The shape of every tuple [parse_addr_message] returns. *)
Definition addr_shape (a : addr) : Prop :=
  let '(ip, port, timestamp) := a in
  (∃ x y : byte, ip = dotted [x; y])
  ∧ 0 ≤ port < 2 ^ 16 ∧ 0 ≤ timestamp < 2 ^ 32.

(** A record that passes the test of line 125: twelve zero bytes,
    [FF FF], and two more bytes. *)
Definition twelve_zero_record : bytes :=
  [x78; x56; x34; x12] ++ [x01; x00; x00; x00; x00; x00; x00; x00]
  ++ repeat x00 12 ++ [xff; xff; x0a; x07] ++ [x20; x8d].

(** * The [version] message

    ** Python text

    [create_version_message] and [_parse_version_payload] go through
    three operations of the language on [str]: [int(x)] on the parts of a
    dotted address, [s.encode('utf-8')] and [len(s)] on the user agent,
    and [b.decode('utf-8', errors='ignore')].  They are an interface;
    the theorems hold for every implementation of it. *)
Class PyText := {
  text : Type;
  text_len : text → nat;                  (* [len(s)] *)
  encode_utf8 : text → result bytes;      (* [UnicodeEncodeError] is a [ValueError] *)
  decode_utf8_ignore : bytes → text;
  empty_text : text;                      (* [''] *)
  int_parts : text → result (list Z)      (* [[int(x) for x in ip.split('.')]] *)
}.

(** [bytes(l)] on a list of integers: [ValueError] unless every one is in
    [range(256)]. *)
Definition py_bytes (l : list Z) : result bytes :=
  if forallb (λ x, (0 <=? x) && (x <? 256)) l then Ok (map byte_of_Z l)
  else Raise ValueError.

(** [struct.pack('>H', v)] *)
Definition pack_be (w : nat) (v : Z) : result bytes :=
  if (0 <=? v) && (v <? 256 ^ Z.of_nat w) then Ok (rev (le_bytes w v))
  else Raise StructError.

(** The inner function [encode_ip]; [services] is the argument of the
    enclosing call. *)
Definition encode_ip `{PyText} (services : Z) (ip : text) (port : Z) : result bytes :=
  ip_parts ← int_parts ip;
  ipv6_format ← py_bytes (replicate 10 0 ++ [0xFF; 0xFF] ++ ip_parts);
  s ← pack_le 8 services;
  p ← pack_be 2 port;
  Ok (s ++ ipv6_format ++ p).

Definition PROTOCOL_VERSION : Z := 70015.

(** The payload that [create_version_message] builds.  [timestamp] and
    [nonce] are the values the call is given, or else takes from the clock
    and from the random generator. *)
Definition version_payload `{PyText} (version services timestamp : Z)
    (addr_recv addr_from : text * Z) (nonce : Z) (user_agent : text)
    (start_height : Z) (relay : bool) : result bytes :=
  v ← pack_le 4 version;
  s ← pack_le 8 services;
  t ← pack_le 8 timestamp;
  r ← encode_ip services (fst addr_recv) (snd addr_recv);
  f ← encode_ip services (fst addr_from) (snd addr_from);
  n ← pack_le 8 nonce;
  l ← varint_encode (Z.of_nat (text_len user_agent));
  u ← encode_utf8 user_agent;
  h ← pack_le 4 start_height;
  let b := if relay then [x01] else [x00] in
  Ok (v ++ s ++ t ++ r ++ f ++ n ++ (l ++ u) ++ h ++ b).

Definition create_version_message `{PyText} (version services timestamp : Z)
    (addr_recv addr_from : text * Z) (nonce : Z) (user_agent : text)
    (start_height : Z) (relay : bool) : result bytes :=
  payload ← version_payload version services timestamp addr_recv addr_from
                            nonce user_agent start_height relay;
  create_message MSG_VERSION payload MAINNET_MAGIC.

(** The values of the dict that [_parse_version_payload] returns. *)
Inductive pyval `{PyText} :=
  | PyInt (n : Z)
  | PyStr (s : text).

(** The [user_agent] that lines 228-235 read at [offset]: [''] unless the
    var-int length and the bytes it announces are all there. *)
Definition read_user_agent `{PyText} (payload : bytes) (offset : nat) : text :=
  if (offset <? length payload)%nat then
    match varint_decode payload offset with
    | Ok (ua_len, offset) =>
      if Z.of_nat offset + ua_len <=? Z.of_nat (length payload)
      then decode_utf8_ignore (slice offset (offset + Z.to_nat ua_len) payload)
      else empty_text
    | Raise _ => empty_text
    end
  else empty_text.

(** The body of the [try] block of [_parse_version_payload]. *)
Definition parse_version_body `{PyText} (payload : bytes) : result (gmap string pyval) :=
  let offset := 0%nat in
  if (length payload <? 4)%nat then Ok ∅
  else
    version ← unpack_le 4 (slice offset (offset + 4) payload);
    let offset := (offset + 4)%nat in
    if (length payload <? offset + 8)%nat then Ok {[ "version"%string := PyInt version ]}
    else
      services ← unpack_le 8 (slice offset (offset + 8) payload);
      let offset := (offset + 8)%nat in
      if (length payload <? offset + 8)%nat
      then Ok (<[ "services"%string := PyInt services ]>
                 {[ "version"%string := PyInt version ]})
      else
        timestamp ← unpack_le 8 (slice offset (offset + 8) payload);
        let offset := (offset + 8)%nat in
        let offset := (offset + 26)%nat in
        let offset := (offset + 26)%nat in
        let offset := (offset + 8)%nat in
        let user_agent := read_user_agent payload offset in
        Ok (<[ "user_agent"%string := PyStr user_agent ]>
              (<[ "timestamp"%string := PyInt timestamp ]>
                 (<[ "services"%string := PyInt services ]>
                    {[ "version"%string := PyInt version ]}))).

(** [_parse_version_payload]: [except Exception: return {}]. *)
Definition _parse_version_payload `{PyText} (payload : bytes) : gmap string pyval :=
  match parse_version_body payload with
  | Ok d => d
  | Raise _ => ∅
  end.

(** An implementation of the text interface, for evaluation: strings of
    7-bit characters, on which UTF-8 is the identity, and parts written
    in decimal digits. *)
Module AsciiText.

Definition part (s : string) : result Z :=
  match s with
  | EmptyString => Raise ValueError
  | _ =>
    match IPv4.digits s 0 with
    | Some n => Ok (Z.of_N n)
    | None => Raise ValueError
    end
  end.

Fixpoint parts (l : list string) : result (list Z) :=
  match l with
  | [] => Ok []
  | s :: l' => n ← part s; ns ← parts l'; Ok (n :: ns)
  end.

Definition library : PyText :=
  {| text := string;
     text_len := String.length;
     encode_utf8 := λ s, Ok (list_byte_of_string s);
     decode_utf8_ignore :=
       λ bs, string_of_list_byte (filter (λ b, byte_val b < 128) bs);
     empty_text := EmptyString;
     int_parts := λ s, parts (IPv4.split_dots s) |}.

End AsciiText.

(** An [addr] frame with one record that passes the test of line 125. *)
Definition one_addr_frame : bytes :=
  match create_message MSG_ADDR ([x01] ++ twelve_zero_record) MAINNET_MAGIC with
  | Ok F => F
  | Raise _ => []
  end.

(** ** The shape of a crawl

    Consecutive states of the result of [crawl_loop] are one batch apart,
    and the last one is a state in which the loop stops. *)
Definition batch_step `{IpAddress} (env : environment) (max_nodes : Z)
    (c c' : crawler) : Prop :=
  ∃ iteration,
    loop_condition c max_nodes = true
    ∧ select env iteration c ≠ []
    ∧ c' = run_batch env iteration c (select env iteration c).

Definition stopped (env : environment) (max_nodes : Z) (c : crawler) : Prop :=
  loop_condition c max_nodes = false ∨ ∃ iteration, select env iteration c = [].

Inductive linked {A} (R : A → A → Prop) : list A → Prop :=
  | linked_one a : linked R [a]
  | linked_cons a b l : R a b → linked R (b :: l) → linked R (a :: b :: l).

(** The endpoint of a record. *)
Definition ni_endpoint (ni : node_info) : endpoint := (ni_ip ni, ni_port ni).

(** The records of [node_data] are of distinct endpoints, all attempted
    and none marked as failed. *)
Definition records_inv (c : crawler) : Prop :=
  NoDup (map ni_endpoint (node_data c))
  ∧ ∀ ni, ni ∈ node_data c →
      ni_endpoint ni ∈ crawled_nodes c ∧ ni_endpoint ni ∉ failed_nodes c.

(** A session that ends in the outer handlers of [connect_to_node]. *)
Definition session_fails (t : transcript) : bool :=
  negb (connect_ok t) || negb (close_ok t).

(** The 256 bytes. *)
Definition all_bytes : list byte :=
  map (λ n, byte_of_Z (Z.of_nat n)) (seq 0 256).

(** A peer that completes the handshake and answers [getaddr] with
    [one_addr_frame]. *)
Definition talkative : transcript :=
  let frame command payload :=
    match create_message command payload MAINNET_MAGIC with
    | Ok F => F
    | Raise _ => []
    end in
  Transcript true
    (ReadData (frame MSG_VERSION (le_bytes 4 PROTOCOL_VERSION ++ le_bytes 8 1)))
    (ReadData (frame MSG_VERACK []))
    [ReadData one_addr_frame]
    true.

(** The whole 30-byte records that a byte string starts with, in order;
    what is left over at the end, shorter than a record, is not one. *)
Fixpoint chunks30 (n : nat) (d : bytes) : list bytes :=
  match n with
  | O => []
  | S n' => take 30 d :: chunks30 n' (drop 30 d)
  end.

Definition complete_records (d : bytes) : list bytes :=
  chunks30 (length d / 30) d.

(** The addresses parsed up to the point where [parse_addr_message]
    stops: none when the count cannot be read; otherwise those of the
    whole records that follow the count, as many as the count announces
    and at most 1000, that pass the test of line 125. *)
Definition addresses_so_far (data : bytes) : list addr :=
  match varint_decode data 0 with
  | Ok (count, offset) =>
    map record_addr
      (filter (λ r, record_ok r = true)
         (take (Z.to_nat (Z.min count 1000)) (complete_records (drop offset data))))
  | Raise _ => []
  end.

(** * Proofs *)

(** ** Basic facts on bytes and packing *)

Lemma byte_val_range b : 0 ≤ byte_val b < 256.
Proof.
  unfold byte_val. pose proof (Byte.to_N_bounded b) as H.
  lia.
Qed.

Lemma byte_val_of_Z z : byte_val (byte_of_Z z) = z mod 256.
Proof.
  unfold byte_val, byte_of_Z.
  pose proof (Z.mod_pos_bound z 256 eq_refl) as Hr.
  destruct (Byte.of_N (Z.to_N (z mod 256))) as [b|] eqn:E.
  - apply Byte.to_of_N in E. rewrite E. lia.
  - apply Byte.of_N_None_iff in E. lia.
Qed.

Lemma byte_of_Z_val b : byte_of_Z (byte_val b) = b.
Proof.
  unfold byte_of_Z. pose proof (byte_val_range b) as Hr.
  rewrite Z.mod_small by lia. unfold byte_val.
  rewrite N2Z.id, Byte.of_to_N. reflexivity.
Qed.

Lemma le_bytes_length w v : length (le_bytes w v) = w.
Proof. revert v. induction w as [|w IH]; intros v; simpl; [done|]. by rewrite IH. Qed.

Lemma le_value_range bs : 0 ≤ le_value bs < 256 ^ Z.of_nat (length bs).
Proof.
  induction bs as [|b bs IH]; simpl length; simpl le_value; [lia|].
  rewrite Nat2Z.inj_succ, Z.pow_succ_r by lia.
  pose proof (byte_val_range b). lia.
Qed.

Lemma le_value_bytes w v :
  0 ≤ v < 256 ^ Z.of_nat w → le_value (le_bytes w v) = v.
Proof.
  revert v. induction w as [|w IH]; intros v Hv.
  - simpl in *. lia.
  - rewrite Nat2Z.inj_succ, Z.pow_succ_r in Hv by lia.
    simpl. rewrite byte_val_of_Z, IH.
    + pose proof (Z.div_mod v 256). lia.
    + split; [apply Z.div_pos; lia|].
      apply Z.div_lt_upper_bound; lia.
Qed.

Lemma le_bytes_value bs : le_bytes (length bs) (le_value bs) = bs.
Proof.
  induction bs as [|b bs IH]; [done|].
  simpl. pose proof (byte_val_range b) as Hb.
  assert (Hm : (byte_val b + 256 * le_value bs) mod 256 = byte_val b).
  { symmetry. apply (Z.mod_unique_pos _ _ (le_value bs)); lia. }
  assert (Hd : (byte_val b + 256 * le_value bs) / 256 = le_value bs).
  { symmetry. apply (Z.div_unique_pos _ _ _ (byte_val b)); lia. }
  rewrite Hd, IH. f_equal.
  unfold byte_of_Z. rewrite Hm. fold (byte_of_Z (byte_val b)).
  rewrite <- (byte_of_Z_val b) at 2. unfold byte_of_Z.
  by rewrite Z.mod_small by lia.
Qed.

Lemma pack_le_ok w v :
  0 ≤ v < 256 ^ Z.of_nat w → pack_le w v = Ok (le_bytes w v).
Proof.
  intros [H0 H1]. unfold pack_le.
  apply Z.leb_le in H0. apply Z.ltb_lt in H1. by rewrite H0, H1.
Qed.

Lemma unpack_le_ok w bs :
  length bs = w → unpack_le w bs = Ok (le_value bs).
Proof. intros <-. unfold unpack_le. by rewrite Nat.eqb_refl. Qed.

Lemma unpack_be_ok w bs :
  length bs = w → unpack_be w bs = Ok (le_value (rev bs)).
Proof. intros <-. unfold unpack_be. by rewrite Nat.eqb_refl. Qed.

Lemma slice_length a b (data : bytes) :
  (b ≤ length data)%nat → length (slice a b data) = (b - a)%nat.
Proof. intros H. unfold slice. rewrite length_take, length_drop. lia. Qed.

Lemma slice_0 n (data : bytes) : slice 0 n data = take n data.
Proof. unfold slice. by rewrite Nat.sub_0_r. Qed.

(** ** Var-int round trip *)

Lemma le_bytes_cons_value (tag : byte) w v :
  0 ≤ v < 256 ^ Z.of_nat w →
  unpack_le w (slice 1 (S w) (tag :: le_bytes w v)) = Ok v.
Proof.
  intros Hv. unfold slice.
  replace (S w - 1)%nat with w by lia.
  rewrite take_ge by (rewrite length_drop; simpl; rewrite le_bytes_length; lia).
  change (drop 1 (tag :: le_bytes w v)) with (le_bytes w v).
  rewrite unpack_le_ok by apply le_bytes_length.
  by rewrite le_value_bytes.
Qed.

Lemma varint_decode_literal v :
  0 ≤ v < 0xFD → varint_decode [byte_of_Z v] 0 = Ok (v, 1%nat).
Proof.
  intros Hv. unfold varint_decode. simpl.
  rewrite byte_val_of_Z, Z.mod_small by lia.
  destruct (Z.ltb_spec v 253); [done|lia].
Qed.

Lemma varint_decode_FD v :
  0 ≤ v < 256 ^ 2 → varint_decode (xfd :: le_bytes 2 v) 0 = Ok (v, 3%nat).
Proof.
  intros Hv. unfold varint_decode.
  change (length (xfd :: le_bytes 2 v)) with 3%nat.
  change ((xfd :: le_bytes 2 v) !! 0%nat) with (Some xfd).
  cbv iota beta zeta. change (byte_val xfd) with 253.
  change (0 + 1)%nat with 1%nat. change (0 + 3)%nat with 3%nat.
  rewrite (le_bytes_cons_value xfd 2 v Hv). done.
Qed.

Lemma varint_decode_FE v :
  0 ≤ v < 256 ^ 4 → varint_decode (xfe :: le_bytes 4 v) 0 = Ok (v, 5%nat).
Proof.
  intros Hv. unfold varint_decode.
  change (length (xfe :: le_bytes 4 v)) with 5%nat.
  change ((xfe :: le_bytes 4 v) !! 0%nat) with (Some xfe).
  cbv iota beta zeta. change (byte_val xfe) with 254.
  change (0 + 1)%nat with 1%nat. change (0 + 5)%nat with 5%nat.
  rewrite (le_bytes_cons_value xfe 4 v Hv). done.
Qed.

Lemma varint_decode_FF v :
  0 ≤ v < 256 ^ 8 → varint_decode (xff :: le_bytes 8 v) 0 = Ok (v, 9%nat).
Proof.
  intros Hv. unfold varint_decode.
  change (length (xff :: le_bytes 8 v)) with 9%nat.
  change ((xff :: le_bytes 8 v) !! 0%nat) with (Some xff).
  cbv iota beta zeta. change (byte_val xff) with 255.
  change (0 + 1)%nat with 1%nat. change (0 + 9)%nat with 9%nat.
  rewrite (le_bytes_cons_value xff 8 v Hv). done.
Qed.

Lemma varint_encode_cases v :
  0 ≤ v < 2 ^ 64 →
  varint_encode v =
    Ok (if v <? 0xFD then [byte_of_Z v]
        else if v <=? 0xFFFF then xfd :: le_bytes 2 v
        else if v <=? 0xFFFFFFFF then xfe :: le_bytes 4 v
        else xff :: le_bytes 8 v).
Proof.
  intros Hv. unfold varint_encode.
  destruct (Z.ltb_spec v 0xFD).
  { rewrite pack_le_ok by (change (256 ^ Z.of_nat 1) with 256; lia). done. }
  destruct (Z.leb_spec v 0xFFFF).
  { rewrite (pack_le_ok 2) by (change (256 ^ Z.of_nat 2) with 65536; lia). done. }
  destruct (Z.leb_spec v 0xFFFFFFFF).
  { rewrite (pack_le_ok 4) by (change (256 ^ Z.of_nat 4) with 4294967296; lia). done. }
  rewrite (pack_le_ok 8) by (change (256 ^ Z.of_nat 8) with (2 ^ 64); lia). done.
Qed.

(** C4: on [0, 2^64) decoding the encoding of [n] at offset 0 gives back
    [n] and the length of the encoding, and the seven boundary inputs
    0, 0xFC, 0xFD, 0xFFFF, 0x10000, 0xFFFFFFFF, 0x100000000 encode to
    1, 1, 3, 3, 5, 5, 9 bytes. *)
Theorem varint_roundtrip (n : Z) :
  0 ≤ n < 2 ^ 64 →
  (∃ enc, varint_encode n = Ok enc
          ∧ varint_decode enc 0 = Ok (n, length enc))
  ∧ map encoded_length [0; 0xFC; 0xFD; 0xFFFF; 0x10000; 0xFFFFFFFF; 0x100000000]
    = map Some [1; 1; 3; 3; 5; 5; 9]%nat.
Proof.
  intros Hn. split; [|vm_compute; reflexivity].
  rewrite (varint_encode_cases n Hn). eexists; split; [reflexivity|].
  destruct (Z.ltb_spec n 0xFD).
  { by rewrite varint_decode_literal by lia. }
  destruct (Z.leb_spec n 0xFFFF).
  { by rewrite varint_decode_FD by (change (256 ^ 2) with 65536; lia). }
  destruct (Z.leb_spec n 0xFFFFFFFF).
  { by rewrite varint_decode_FE by (change (256 ^ 4) with 4294967296; lia). }
  by rewrite varint_decode_FF by (change (256 ^ 8) with (2 ^ 64); lia).
Qed.

Lemma varint_roundtrip_witness :
  (∃ enc, varint_encode 70015 = Ok enc
          ∧ varint_decode enc 0 = Ok (70015, length enc))
  ∧ map encoded_length [0; 0xFC; 0xFD; 0xFFFF; 0x10000; 0xFFFFFFFF; 0x100000000]
    = map Some [1; 1; 3; 3; 5; 5; 9]%nat.
Proof. apply (varint_roundtrip 70015). lia. Defined.

(** ** Frames *)

Lemma digest_length msg : length (SHA256.digest msg) = 32%nat.
Proof.
  unfold SHA256.digest, SHA256.digest_bytes, SHA256.be32.
  rewrite !length_app, !length_rev, !le_bytes_length. done.
Qed.

Lemma checksum4_length payload : length (checksum4 payload) = 4%nat.
Proof. unfold checksum4. rewrite length_take, digest_length. done. Qed.

Lemma parse_message_short data :
  (length data < 24)%nat → parse_message data = Ok None.
Proof.
  intros H. unfold parse_message.
  destruct (Nat.ltb_spec (length data) 24); [done|lia].
Qed.

Lemma parse_message_long data :
  (24 ≤ length data)%nat →
  parse_message data =
    Ok (if negb (frame_magic data =? MAINNET_MAGIC) then None
        else if MAX_PAYLOAD <? frame_length data then None
        else if Z.of_nat (length data) <? 24 + frame_length data then None
        else if negb (bool_decide (checksum4 (frame_payload data) = frame_checksum data))
             then None
        else Some (frame_command data, frame_payload data)).
Proof.
  intros H. unfold parse_message.
  destruct (Nat.ltb_spec (length data) 24); [lia|].
  rewrite (unpack_le_ok 4) by (rewrite slice_length; lia).
  rewrite (unpack_le_ok 4) by (rewrite slice_length; lia).
  cbn [mbind result_mbind result_bind].
  fold (frame_magic data) (frame_length data) (frame_checksum data)
       (frame_command data) (frame_payload data).
  repeat case_match; done.
Qed.

(** The hash on the two standard test vectors, [""] and ["abc"]. *)
Lemma digest_test_vectors :
  map byte_val (SHA256.digest [])
  = [0xe3; 0xb0; 0xc4; 0x42; 0x98; 0xfc; 0x1c; 0x14; 0x9a; 0xfb; 0xf4; 0xc8;
     0x99; 0x6f; 0xb9; 0x24; 0x27; 0xae; 0x41; 0xe4; 0x64; 0x9b; 0x93; 0x4c;
     0xa4; 0x95; 0x99; 0x1b; 0x78; 0x52; 0xb8; 0x55]
  ∧ map byte_val (SHA256.digest [x61; x62; x63])
  = [0xba; 0x78; 0x16; 0xbf; 0x8f; 0x01; 0xcf; 0xea; 0x41; 0x41; 0x40; 0xde;
     0x5d; 0xae; 0x22; 0x23; 0xb0; 0x03; 0x61; 0xa3; 0x96; 0x17; 0x7a; 0x9c;
     0xb4; 0x10; 0xff; 0x61; 0xf2; 0x00; 0x15; 0xad].
Proof. split; vm_compute; reflexivity. Qed.

(** C10: [parse_message] is total on byte strings: it never raises, it
    returns [None] or a pair, and a returned payload is at most 2 MiB long
    and its double-SHA-256 starts with bytes 20..24 of the input. *)
Theorem parse_message_total (data : bytes) :
  match parse_message data with
  | Ok None => True
  | Ok (Some (command, payload)) =>
      Z.of_nat (length payload) ≤ 2 * 1024 * 1024
      ∧ take 4 (SHA256.digest (SHA256.digest payload)) = slice 20 24 data
  | Raise _ => False
  end.
Proof.
  destruct (Nat.lt_ge_cases (length data) 24) as [Hs|Hl].
  { by rewrite parse_message_short. }
  rewrite (parse_message_long data Hl).
  destruct (negb (frame_magic data =? MAINNET_MAGIC)); [done|].
  destruct (Z.ltb_spec MAX_PAYLOAD (frame_length data)) as [|Hmax]; [done|].
  destruct (Z.ltb_spec (Z.of_nat (length data)) (24 + frame_length data)) as [|Hlen]; [done|].
  destruct (bool_decide_reflect (checksum4 (frame_payload data) = frame_checksum data))
    as [Hck|]; [|done].
  cbn [negb]. split; [|exact Hck].
  pose proof (le_value_range (slice 16 20 data)) as Hr.
  fold (frame_length data) in Hr.
  unfold frame_payload. rewrite slice_length by lia.
  unfold MAX_PAYLOAD in Hmax. lia.
Qed.

(** C9: the verack frame is exactly the 24 bytes
    F9 BE B4 D9 / "verack" padded to 12 / 00 00 00 00 / 5D F6 E0 E2,
    the last four being the head of the double SHA-256 of the empty
    payload. *)
Theorem create_verack_message_bytes :
  ∃ frame,
    create_verack_message = Ok frame
    ∧ length frame = 24%nat
    ∧ frame = [xf9; xbe; xb4; xd9]
              ++ [x76; x65; x72; x61; x63; x6b; x00; x00; x00; x00; x00; x00]
              ++ [x00; x00; x00; x00]
              ++ [x5d; xf6; xe0; xe2]
    ∧ take 4 (SHA256.digest (SHA256.digest [])) = [x5d; xf6; xe0; xe2].
Proof.
  eexists. split; [vm_compute; reflexivity|].
  split; [reflexivity|]. split; [reflexivity|].
  vm_compute. reflexivity.
Qed.

(** ** Frame round trip *)

Lemma rstrip_zeros k : rstrip (repeat x00 k) = [].
Proof. induction k as [|k IH]; [done|]. simpl. by rewrite IH. Qed.

Lemma rstrip_app_zeros bs k : rstrip (bs ++ repeat x00 k) = rstrip bs.
Proof.
  induction bs as [|b bs IH]; simpl.
  - apply rstrip_zeros.
  - by rewrite IH.
Qed.

Lemma rstrip_id bs : last bs ≠ Some x00 → rstrip bs = bs.
Proof.
  induction bs as [|b bs IH]; [done|].
  destruct bs as [|b' bs].
  - simpl. intros Hb. destruct (decide (b = x00)) as [->|]; [done|done].
  - intros Hl. change (last (b :: b' :: bs)) with (last (b' :: bs)) in Hl.
    specialize (IH Hl). simpl in *. by rewrite IH.
Qed.

Lemma frame_fields (M C L K P : bytes) :
  length M = 4%nat → length C = 12%nat → length L = 4%nat → length K = 4%nat →
  let F := M ++ C ++ L ++ K ++ P in
  slice 0 4 F = M ∧ slice 4 16 F = C ∧ slice 16 20 F = L ∧ slice 20 24 F = K
  ∧ drop 24 F = P ∧ length F = (24 + length P)%nat.
Proof.
  intros HM HC HL HK.
  do 5 (destruct M as [|? M]; try discriminate HM).
  do 13 (destruct C as [|? C]; try discriminate HC).
  do 5 (destruct L as [|? L]; try discriminate HL).
  do 5 (destruct K as [|? K]; try discriminate HK).
  repeat split.
Qed.

Lemma create_message_ok command payload magic :
  0 ≤ magic < 2 ^ 32 → Z.of_nat (length payload) < 2 ^ 32 →
  create_message command payload magic =
    Ok (le_bytes 4 magic ++ ljust 12 (take 12 command)
        ++ le_bytes 4 (Z.of_nat (length payload)) ++ checksum4 payload ++ payload).
Proof.
  intros Hm Hp. unfold create_message.
  rewrite !pack_le_ok by (change (256 ^ Z.of_nat 4) with (2 ^ 32); lia).
  done.
Qed.

Lemma ljust_length n bs : (length bs ≤ n)%nat → length (ljust n bs) = n.
Proof. intros H. unfold ljust. rewrite length_app, repeat_length. lia. Qed.

(** C3: a frame built by [create_message] with the mainnet magic, for a
    command of at most 12 bytes without trailing NUL and a payload of at
    most 2 MiB, decodes at offset 0 to the same command and payload, and
    the next offset is the length of the frame. *)
Theorem frame_roundtrip (command payload : bytes) :
  (length command ≤ 12)%nat →
  last command ≠ Some x00 →
  Z.of_nat (length payload) ≤ 2 * 1024 * 1024 →
  ∃ F, create_message command payload MAINNET_MAGIC = Ok F
       ∧ parse_message F = Ok (Some (command, payload))
       ∧ decode_frame F 0 = Ok (Some (command, payload, length F)).
Proof.
  intros Hc Hnul Hp.
  rewrite create_message_ok by (unfold MAINNET_MAGIC; lia).
  eexists; split; [reflexivity|].
  set (M := le_bytes 4 MAINNET_MAGIC).
  set (C := ljust 12 (take 12 command)).
  set (L := le_bytes 4 (Z.of_nat (length payload))).
  set (K := checksum4 payload).
  destruct (frame_fields M C L K payload) as (HM & HC & HL & HK & HP & Hlen).
  { apply le_bytes_length. }
  { apply ljust_length. rewrite length_take. lia. }
  { apply le_bytes_length. }
  { apply checksum4_length. }
  set (F := M ++ C ++ L ++ K ++ payload) in *.
  assert (Hmagic : frame_magic F = MAINNET_MAGIC).
  { unfold frame_magic. rewrite HM. reflexivity. }
  assert (Hlength : frame_length F = Z.of_nat (length payload)).
  { unfold frame_length. rewrite HL. apply le_value_bytes.
    change (256 ^ Z.of_nat 4) with (2 ^ 32). lia. }
  assert (Hpayload : frame_payload F = payload).
  { unfold frame_payload, slice. rewrite Hlength, Nat2Z.id, HP.
    apply take_ge. lia. }
  assert (Hcommand : frame_command F = command).
  { unfold frame_command. rewrite HC. unfold C, ljust.
    rewrite rstrip_app_zeros, take_ge by lia. by apply rstrip_id. }
  assert (Hparse : parse_message F = Ok (Some (command, payload))).
  { rewrite parse_message_long by lia.
    rewrite Hmagic, Z.eqb_refl, Hlength, Hpayload, Hcommand.
    cbn [negb].
    destruct (Z.ltb_spec MAX_PAYLOAD (Z.of_nat (length payload))) as [Hgt|_].
    { unfold MAX_PAYLOAD in Hgt. lia. }
    destruct (Z.ltb_spec (Z.of_nat (length F)) (24 + Z.of_nat (length payload))); [lia|].
    unfold frame_checksum. rewrite HK.
    by rewrite bool_decide_eq_true_2. }
  split; [exact Hparse|].
  clearbody F. unfold decode_frame. rewrite drop_0, Hparse.
  cbn [mbind result_mbind result_bind]. rewrite Hlen. reflexivity.
Qed.

Lemma frame_roundtrip_witness :
  ∃ F, create_message [x61; x64; x64; x72] [x00] MAINNET_MAGIC = Ok F
       ∧ parse_message F = Ok (Some ([x61; x64; x64; x72], [x00]))
       ∧ decode_frame F 0 = Ok (Some ([x61; x64; x64; x72], [x00], length F)).
Proof.
  apply (frame_roundtrip [x61; x64; x64; x72] [x00]).
  - simpl. lia.
  - simpl. discriminate.
  - simpl. lia.
Defined.

(** ** Failure outcomes of [parse_message] *)

(** C2, as stated, fails: a truncated header (the empty buffer) and a
    complete 24-byte header with a foreign magic both give the same
    [None], so no reading of the result separates [Incomplete] from
    [Malformed]. *)
Lemma parse_message_failures_merged :
  parse_message [] = Ok None
  ∧ parse_message (repeat x00 24) = Ok None
  ∧ ¬ ∃ classify : result (option (bytes * bytes)) → failure_kind,
        classify (parse_message []) = Incomplete
        ∧ classify (parse_message (repeat x00 24)) = Malformed.
Proof.
  assert (E1 : parse_message [] = Ok None) by reflexivity.
  assert (E2 : parse_message (repeat x00 24) = Ok None) by (vm_compute; reflexivity).
  split; [exact E1|]. split; [exact E2|].
  intros (classify & H1 & H2). rewrite E1 in H1. rewrite E2 in H2. congruence.
Qed.

(** C2, amended: [parse_message] has a single failure outcome, [None],
    returned exactly when the buffer has fewer than 24 bytes, or the magic
    is not [MAINNET_MAGIC], or the length field exceeds 2 MiB, or fewer
    than [24 + length] bytes are present, or the checksum does not match. *)
Theorem parse_message_none_iff (data : bytes) :
  parse_message data = Ok None ↔
    (length data < 24)%nat
    ∨ frame_magic data ≠ MAINNET_MAGIC
    ∨ 2 * 1024 * 1024 < frame_length data
    ∨ Z.of_nat (length data) < 24 + frame_length data
    ∨ checksum4 (frame_payload data) ≠ frame_checksum data.
Proof.
  destruct (Nat.lt_ge_cases (length data) 24) as [Hs|Hl].
  { rewrite parse_message_short by done. split; [by left|done]. }
  rewrite (parse_message_long data Hl).
  destruct (Z.eqb_spec (frame_magic data) MAINNET_MAGIC) as [Hm|Hm]; cbn [negb];
    [|split; [by right; left|done]].
  destruct (Z.ltb_spec MAX_PAYLOAD (frame_length data)) as [Hx|Hx];
    [split; [by right; right; left|done]|].
  destruct (Z.ltb_spec (Z.of_nat (length data)) (24 + frame_length data)) as [Hn|Hn];
    [split; [by right; right; right; left|done]|].
  destruct (bool_decide_reflect (checksum4 (frame_payload data) = frame_checksum data))
    as [Hck|Hck]; cbn [negb]; [|split; [by right; right; right; right|done]].
  split; [discriminate|].
  unfold MAX_PAYLOAD in Hx.
  intros [?|[?|[?|[?|?]]]]; [lia|done|lia|lia|done].
Qed.

Lemma parse_message_none_iff_witness :
  parse_message (repeat x00 24) = Ok None.
Proof.
  apply (proj2 (parse_message_none_iff (repeat x00 24))).
  right; left. vm_compute. discriminate.
Defined.

(** ** [addr] payloads *)

Lemma slice_take a b k (data : bytes) :
  (b ≤ k)%nat → slice a b (take k data) = slice a b data.
Proof.
  intros Hb. unfold slice.
  destruct (Nat.le_gt_cases a b) as [Hab|Hab].
  - rewrite !take_drop_commute, take_take.
    f_equal. f_equal. lia.
  - replace (b - a)%nat with 0%nat by lia. done.
Qed.

(** One iteration of the loop when a whole record is available: either
    way the offset moves by the 30 bytes of the record. *)
Lemma addr_loop_step n data offset acc :
  (offset + 30 ≤ length data)%nat →
  addr_loop (S n) data offset acc =
    let ip_bytes := slice (offset + 12) (offset + 28) data in
    if ip_prefix_ok ip_bytes then
      addr_loop n data (offset + 30)
        (acc ++ [(dotted (slice 14 18 ip_bytes),
                  le_value (rev (slice (offset + 28) (offset + 30) data)),
                  le_value (slice offset (offset + 4) data))])
    else addr_loop n data (offset + 30) acc.
Proof.
  intros H. cbn [addr_loop].
  destruct (Nat.ltb_spec (length data) (offset + 30)); [lia|].
  rewrite (unpack_le_ok 4) by (rewrite slice_length; lia).
  rewrite (unpack_le_ok 8) by (rewrite slice_length; lia).
  cbn [mbind result_mbind result_bind].
  replace (offset + 4 + 8)%nat with (offset + 12)%nat by lia.
  replace (offset + 12 + 16)%nat with (offset + 28)%nat by lia.
  replace (offset + 28 + 2)%nat with (offset + 30)%nat by lia.
  cbv zeta.
  destruct (ip_prefix_ok (slice (offset + 12) (offset + 28) data)); [|done].
  rewrite (unpack_be_ok 2) by (rewrite slice_length; lia).
  done.
Qed.

(** The [break]: a record that is cut short ends the loop with what has
    been collected. *)
Lemma addr_loop_break n data offset acc :
  (length data < offset + 30)%nat → addr_loop (S n) data offset acc = Ok acc.
Proof.
  intros H. cbn [addr_loop].
  destruct (Nat.ltb_spec (length data) (offset + 30)); [done|lia].
Qed.

(** The loop never raises and only appends to its accumulator. *)
Lemma addr_loop_appends n data offset acc :
  ∃ more, addr_loop n data offset acc = Ok (acc ++ more).
Proof.
  revert offset acc. induction n as [|n IH]; intros offset acc.
  { exists []. by rewrite app_nil_r. }
  destruct (Nat.lt_ge_cases (length data) (offset + 30)) as [Hs|Hl].
  { exists []. rewrite app_nil_r. by apply addr_loop_break. }
  rewrite addr_loop_step by done. cbv zeta.
  destruct (ip_prefix_ok _); [|apply IH].
  edestruct IH as [more ->]. rewrite <- app_assoc. by eexists.
Qed.

(** Cutting the buffer at [k] bytes makes the loop stop earlier, with a
    prefix of what it collects on the whole buffer. *)
Lemma addr_loop_take n data k offset acc :
  ∃ parsed rest,
    addr_loop n (take k data) offset acc = Ok (acc ++ parsed)
    ∧ addr_loop n data offset acc = Ok (acc ++ parsed ++ rest).
Proof.
  revert offset acc. induction n as [|n IH]; intros offset acc.
  { exists [], []. by rewrite !app_nil_r. }
  destruct (Nat.lt_ge_cases (length (take k data)) (offset + 30)) as [Hs|Hl].
  { destruct (addr_loop_appends (S n) data offset acc) as [more Hmore].
    exists [], more. rewrite app_nil_r. split; [by apply addr_loop_break|done]. }
  assert (Hk : (offset + 30 ≤ k)%nat ∧ (offset + 30 ≤ length data)%nat).
  { rewrite length_take in Hl. lia. }
  destruct Hk as [Hk Hd].
  rewrite !addr_loop_step by done. cbv zeta.
  rewrite !slice_take by lia.
  destruct (ip_prefix_ok _); [|apply IH].
  edestruct IH as (parsed & rest & -> & ->).
  rewrite <- !app_assoc. by eexists _, _.
Qed.

Lemma varint_decode_0 (data : bytes) :
  varint_decode data 0 =
    match data with
    | [] => Raise ValueError
    | b :: _ =>
      if byte_val b <? 0xFD then Ok (byte_val b, 1%nat)
      else if byte_val b =? 0xFD then
        if (length data <? 3)%nat then Raise ValueError
        else Ok (le_value (slice 1 3 data), 3%nat)
      else if byte_val b =? 0xFE then
        if (length data <? 5)%nat then Raise ValueError
        else Ok (le_value (slice 1 5 data), 5%nat)
      else
        if (length data <? 9)%nat then Raise ValueError
        else Ok (le_value (slice 1 9 data), 9%nat)
    end.
Proof.
  destruct data as [|b data]; [done|].
  unfold varint_decode.
  change (length (b :: data) <=? 0)%nat with false.
  change ((b :: data) !! 0%nat) with (Some b).
  cbv iota beta zeta.
  change (0 + 1)%nat with 1%nat. change (0 + 3)%nat with 3%nat.
  change (0 + 5)%nat with 5%nat. change (0 + 9)%nat with 9%nat.
  destruct (byte_val b <? 253); [done|].
  destruct (byte_val b =? 253).
  { destruct (Nat.ltb_spec (length (b :: data)) 3); [done|].
    by rewrite (unpack_le_ok 2) by (rewrite slice_length; lia). }
  destruct (byte_val b =? 254).
  { destruct (Nat.ltb_spec (length (b :: data)) 5); [done|].
    by rewrite (unpack_le_ok 4) by (rewrite slice_length; lia). }
  destruct (Nat.ltb_spec (length (b :: data)) 9); [done|].
  by rewrite (unpack_le_ok 8) by (rewrite slice_length; lia).
Qed.

(** The only exception [varint_decode] raises at offset 0 is the
    [ValueError] of a truncated count. *)
Lemma varint_decode_raises data e :
  varint_decode data 0 = Raise e → e = ValueError.
Proof.
  rewrite varint_decode_0. destruct data as [|b data]; [congruence|].
  repeat case_match; congruence.
Qed.

(** On a buffer cut at [k] bytes the count is either truncated
    ([ValueError]) or read as on the whole buffer. *)
Lemma varint_decode_take data k :
  varint_decode (take k data) 0 = Raise ValueError
  ∨ varint_decode (take k data) 0 = varint_decode data 0.
Proof.
  rewrite !varint_decode_0.
  destruct k as [|k]; [by left|].
  destruct data as [|b data]; [by left|].
  cbn [take firstn].
  destruct (byte_val b <? 253); [by right|].
  assert (Hcut : ∀ w, (length (b :: take k data) <? w)%nat = false →
            (length (b :: data) <? w)%nat = false
            ∧ slice 1 w (b :: take k data) = slice 1 w (b :: data)).
  { intros w Hw. apply Nat.ltb_ge in Hw.
    cbn [length] in *. rewrite length_take in Hw. split.
    - apply Nat.ltb_ge. lia.
    - change (b :: take k data) with (take (S k) (b :: data)).
      apply slice_take. lia. }
  destruct (byte_val b =? 253).
  { destruct (length (b :: take k data) <? 3)%nat eqn:E; [by left|].
    destruct (Hcut _ E) as [-> ->]. by right. }
  destruct (byte_val b =? 254).
  { destruct (length (b :: take k data) <? 5)%nat eqn:E; [by left|].
    destruct (Hcut _ E) as [-> ->]. by right. }
  destruct (length (b :: take k data) <? 9)%nat eqn:E; [by left|].
  destruct (Hcut _ E) as [-> ->]. by right.
Qed.

Lemma parse_addr_body_cases data :
  (parse_addr_body data = Raise ValueError ∧ varint_decode data 0 = Raise ValueError)
  ∨ ∃ count offset more,
      varint_decode data 0 = Ok (count, offset)
      ∧ parse_addr_body data = Ok more.
Proof.
  unfold parse_addr_body.
  destruct (varint_decode data 0) as [[count offset]|e] eqn:E.
  - right. cbn [mbind result_mbind result_bind].
    destruct (addr_loop_appends (Z.to_nat (Z.min count 1000)) data offset []) as [more ->].
    by eexists _, _, _.
  - left. apply varint_decode_raises in E as ->. done.
Qed.

Lemma parse_addr_message_returns data :
  ∃ addresses, parse_addr_message data = Ok addresses.
Proof.
  unfold parse_addr_message.
  destruct (length data <? 1)%nat; [by eexists|].
  destruct (parse_addr_body_cases data) as [[-> _]|(c & o & more & _ & ->)];
    by eexists.
Qed.

(** A payload cut short at any point gives the addresses parsed up to
    the cut. *)
Lemma parse_addr_message_take (data : bytes) (k : nat) :
  ∃ parsed rest,
    parse_addr_message (take k data) = Ok parsed
    ∧ parse_addr_message data = Ok (parsed ++ rest)
    ∧ match varint_decode (take k data) 0 with
      | Raise _ => parsed = []
      | Ok _ => True
      end.
Proof.
  destruct (parse_addr_message_returns data) as [full Hfull].
  unfold parse_addr_message in *.
  destruct (length (take k data) <? 1)%nat eqn:Ek.
  { exists [], full. split; [done|]. split; [done|].
    apply Nat.ltb_lt in Ek. destruct (take k data); [done|simpl in Ek; lia]. }
  assert (Hd : (length data <? 1)%nat = false).
  { apply Nat.ltb_ge in Ek. apply Nat.ltb_ge. rewrite length_take in Ek. lia. }
  rewrite Hd in *.
  unfold parse_addr_body in *.
  destruct (varint_decode_take data k) as [Ev|Ev]; rewrite Ev.
  { exists [], full. cbn [mbind result_mbind result_bind]. done. }
  destruct (varint_decode data 0) as [[count offset]|e] eqn:E.
  - cbn [mbind result_mbind result_bind] in *.
    destruct (addr_loop_take (Z.to_nat (Z.min count 1000)) data k offset [])
      as (parsed & rest & -> & ->).
    by exists parsed, rest.
  - apply varint_decode_raises in E as ->.
    exists [], full. cbn [mbind result_mbind result_bind] in *. done.
Qed.

(** ** The session around the parsers *)

Lemma parse_message_returns data : ∃ r, parse_message data = Ok r.
Proof.
  destruct (Nat.lt_ge_cases (length data) 24) as [Hs|Hl].
  - rewrite parse_message_short by done. by eexists.
  - rewrite parse_message_long by done. by eexists.
Qed.

(** The scan of the receive buffer never ends on an exception. *)
Lemma scan_frames_no_exception fuel addr_data offset new_peers :
  (scan_frames fuel addr_data offset new_peers).2 = None.
Proof.
  revert offset new_peers.
  induction fuel as [|fuel IH]; intros offset new_peers; cbn [scan_frames]; [done|].
  destruct (offset <? length addr_data)%nat; [|done].
  destruct (parse_message_returns (drop offset addr_data)) as [[[cmd payload]|] ->];
    [|done].
  destruct (bool_decide (cmd = CMD_ADDR)); [|apply IH].
  destruct (parse_addr_message_returns payload) as [peers ->]. apply IH.
Qed.

Lemma salvage_returns offsets addr_data :
  ∃ peers, salvage offsets addr_data = Ok peers.
Proof.
  induction offsets as [|start offsets IH]; cbn [salvage]; [by eexists|].
  destruct (start <? length addr_data)%nat; [|done].
  destruct (parse_message_returns (drop start addr_data)) as [[[cmd payload]|] ->];
    cbn [mbind result_mbind result_bind]; [|done].
  destruct (bool_decide (cmd = CMD_ADDR)); [|done].
  destruct (parse_addr_message_returns payload) as [peers ->].
  cbn [mbind result_mbind result_bind]. destruct peers; [done|by eexists].
Qed.

(** Once the handshake is through, the exchange yields its record
    whatever the [addr] reads bring. *)
Lemma exchange_completes t version_payload verack_payload :
  expect CMD_VERSION (version_response t) = Some version_payload →
  expect CMD_VERACK (verack_response t) = Some verack_payload →
  ∃ new_peers, exchange t = Some (version_payload, new_peers).
Proof.
  intros Hv Ha. unfold exchange. rewrite Hv, Ha.
  destruct (drain 8 0 (addr_reads t) [] []) as [addr_data new_peers].
  destruct (_ && _); [|by eexists].
  destruct (salvage_returns [0; 24; 48]%nat addr_data) as [peers ->]. by eexists.
Qed.

(** C5: on the payload of scenario S4 the program returns no address at
    all, where the IPv4-mapped record [10.0.0.1:8333] is expected: the
    test of the prefix looks for twelve zero bytes, and an IPv4-mapped
    address has ten. *)
Theorem parse_addr_message_s4 :
  parse_addr_message s4_payload = Ok []
  ∧ ip_prefix_ok (slice 12 28 s4_ipv4_record) = false.
Proof. split; vm_compute; reflexivity. Qed.

(** * The scheduler *)

#[local] Set Warnings "-clear-no-such-hyp".

Section scheduler.
Context `{lib : IpAddress}.

Lemma is_private_ip_false ip : is_private_ip ip = false ↔ routable ip.
Proof.
  unfold is_private_ip, routable. destruct (ip_address ip) as [o|].
  - rewrite !orb_false_iff. split.
    + intros [[? ?] ?]. by exists o.
    + intros (o' & [= <-] & ? & ? & ?). done.
  - split; [done|]. by intros (o & ? & _).
Qed.

(** A string that does not parse is rejected as if private. *)
Lemma is_private_ip_unparseable ip : ip_address ip = None → is_private_ip ip = true.
Proof. unfold is_private_ip. by intros ->. Qed.

Lemma grows_refl c : grows c c.
Proof. by repeat split. Qed.

Lemma grows_trans c1 c2 c3 : grows c1 c2 → grows c2 c3 → grows c1 c3.
Proof.
  intros (? & ? & ?) (? & ? & ?). repeat split; [congruence|set_solver|auto].
Qed.

Lemma seed_spec c s :
  grows c (seed c s)
  ∧ crawled_nodes (seed c s) = crawled_nodes c
  ∧ failed_nodes (seed c s) = failed_nodes c.
Proof.
  unfold seed. destruct (is_private_ip s.1) eqn:E; cbn [negb].
  { split; [apply grows_refl|done]. }
  split; [|done]. repeat split; cbn; [set_solver|].
  intros Hr ep [->%elem_of_singleton|?]%elem_of_union; [|by apply Hr].
  by apply is_private_ip_false.
Qed.

Lemma seeds_spec seeds c :
  grows c (fold_left seed seeds c)
  ∧ crawled_nodes (fold_left seed seeds c) = crawled_nodes c
  ∧ failed_nodes (fold_left seed seeds c) = failed_nodes c.
Proof.
  revert c. induction seeds as [|s seeds IH]; intros c; cbn [fold_left].
  { split; [apply grows_refl|done]. }
  destruct (seed_spec c s) as (Hg & Hc & Hf).
  destruct (IH (seed c s)) as (Hg' & Hc' & Hf').
  split; [by eapply grows_trans|]. split; congruence.
Qed.

Lemma offer_spec c peer :
  grows c (offer c peer)
  ∧ crawled_nodes (offer c peer) = crawled_nodes c
  ∧ failed_nodes (offer c peer) = failed_nodes c.
Proof.
  unfold offer. destruct peer as [[peer_ip peer_port] ts].
  destruct (is_private_ip peer_ip) eqn:E; cbn [negb];
    [split; [apply grows_refl|done]|].
  destruct (_ && _); [|split; [apply grows_refl|done]].
  split; [|done]. repeat split; cbn; [set_solver|].
  intros Hr ep [->%elem_of_singleton|?]%elem_of_union; [|by apply Hr].
  by apply is_private_ip_false.
Qed.

Lemma offers_spec peers c :
  grows c (fold_left offer peers c)
  ∧ crawled_nodes (fold_left offer peers c) = crawled_nodes c
  ∧ failed_nodes (fold_left offer peers c) = failed_nodes c.
Proof.
  revert c. induction peers as [|p peers IH]; intros c; cbn [fold_left].
  { split; [apply grows_refl|done]. }
  destruct (offer_spec c p) as (Hg & Hc & Hf).
  destruct (IH (offer c p)) as (Hg' & Hc' & Hf').
  split; [by eapply grows_trans|]. split; congruence.
Qed.

(** The end of a session leaves [crawled] alone and adds at most its own
    endpoint to [failed]. *)
Lemma session_end_spec c ep t :
  grows c (session_end c ep t)
  ∧ crawled_nodes (session_end c ep t) = crawled_nodes c
  ∧ failed_nodes (session_end c ep t) ⊆ {[ep]} ∪ failed_nodes c.
Proof.
  unfold session_end.
  destruct (connect_ok t); cbn [negb];
    [|split; [by repeat split|split; [done|cbn; set_solver]]].
  destruct (close_ok t); cbn [negb];
    [|split; [by repeat split|split; [done|cbn; set_solver]]].
  destruct (exchange t) as [[payload new_peers]|];
    [|split; [apply grows_refl|split; [done|set_solver]]].
  destruct (offers_spec new_peers c) as (Hg & Hc & Hf).
  split; [done|]. split; [done|]. rewrite Hf. set_solver.
Qed.

Lemma sessions_end_spec net eps c :
  let c' := fold_left (λ c ep, session_end c ep (net ep)) eps c in
  grows c c'
  ∧ crawled_nodes c' = crawled_nodes c
  ∧ failed_nodes c' ⊆ list_to_set eps ∪ failed_nodes c.
Proof.
  revert c. induction eps as [|ep eps IH]; intros c; cbn [fold_left].
  { split; [apply grows_refl|split; [done|set_solver]]. }
  destruct (session_end_spec c ep (net ep)) as (Hg & Hc & Hf).
  destruct (IH (session_end c ep (net ep))) as (Hg' & Hc' & Hf').
  split; [by eapply grows_trans|]. split; [congruence|].
  rewrite list_to_set_cons. clear -Hf Hf'. set_solver.
Qed.

(** The first stretches of a batch put the whole batch in [crawled] and
    touch nothing else. *)
Lemma begin_batch_spec to_crawl c :
  crawled_nodes (begin_batch c to_crawl).1 = crawled_nodes c ∪ list_to_set to_crawl
  ∧ discovered_nodes (begin_batch c to_crawl).1 = discovered_nodes c
  ∧ failed_nodes (begin_batch c to_crawl).1 = failed_nodes c
  ∧ max_concurrent (begin_batch c to_crawl).1 = max_concurrent c
  ∧ (begin_batch c to_crawl).2 ⊆ to_crawl.
Proof.
  revert c. induction to_crawl as [|ep rest IH]; intros c; cbn [begin_batch].
  { cbn. repeat split; set_solver. }
  unfold session_begin. rewrite list_to_set_cons.
  destruct (bool_decide_reflect (ep ∈ crawled_nodes c)) as [Hin|Hin].
  - specialize (IH c). destruct (begin_batch c rest) as [c2 begun].
    cbn [fst snd] in *. destruct IH as (Hc & Hd & Hf & Hm & Hb).
    rewrite Hc, Hd, Hf, Hm. repeat split; set_solver.
  - specialize (IH (add_crawled c ep)).
    destruct (begin_batch (add_crawled c ep) rest) as [c2 begun].
    cbn [fst snd] in *. destruct IH as (Hc & Hd & Hf & Hm & Hb).
    rewrite Hc, Hd, Hf, Hm. cbn. repeat split; set_solver.
Qed.

(** One batch. *)
Lemma run_batch_spec env i c to_crawl :
  environment_wf env →
  registry_inv c →
  (∀ ep, ep ∈ to_crawl → ep ∈ discovered_nodes c) →
  let c' := run_batch env i c to_crawl in
  registry_inv c' ∧ grows c c'
  ∧ crawled_nodes c' = crawled_nodes c ∪ list_to_set to_crawl.
Proof.
  intros Hwf [Hfc Hcd] Hsel. unfold run_batch.
  pose proof (begin_batch_spec to_crawl c) as Hb.
  destruct (begin_batch c to_crawl) as [c1 begun]. cbn [fst snd] in Hb.
  destruct Hb as (Hc1 & Hd1 & Hf1 & Hm1 & Hbegun).
  pose proof (sessions_end_spec (network env) (completion env i begun) c1) as He.
  cbv zeta in He. destruct He as ((Hm2 & Hd2 & Hr2) & Hc2 & Hf2).
  set (c2 := fold_left _ _ c1) in *. clearbody c2.
  cbv zeta. unfold registry_inv, grows.
  cbn [extend_node_data crawled_nodes discovered_nodes failed_nodes max_concurrent].
  assert (Hperm : ∀ ep, ep ∈ completion env i begun → ep ∈ to_crawl).
  { intros ep. destruct (Hwf i begun) as [_ ->]. apply Hbegun. }
  split; [|split].
  - split.
    + rewrite Hc2, Hc1. intros ep Hep. apply Hf2 in Hep.
      apply elem_of_union in Hep as [Hep|Hep].
      * apply elem_of_list_to_set in Hep. apply Hperm in Hep.
        apply elem_of_union_r. by apply elem_of_list_to_set.
      * rewrite Hf1 in Hep. apply elem_of_union_l. by apply Hfc.
    + rewrite Hc2, Hc1. intros ep [Hep|Hep]%elem_of_union.
      * apply Hd2. rewrite Hd1. by apply Hcd.
      * apply Hd2. rewrite Hd1. apply Hsel.
        by apply (elem_of_list_to_set (C:=gset endpoint)).
  - repeat split.
    + congruence.
    + rewrite <- Hd1. done.
    + intros Hr. unfold routable_only.
      cbn [extend_node_data discovered_nodes]. apply Hr2.
      intros ep. rewrite Hd1. apply Hr.
  - congruence.
Qed.

Lemma py_take_sublist {A} n (l : list A) : py_take n l `sublist_of` l.
Proof. unfold py_take. destruct (0 <=? n); apply sublist_take. Qed.

Lemma py_take_length {A} n (l : list A) :
  0 ≤ n → Z.of_nat (length (py_take n l)) ≤ n.
Proof.
  intros Hn. unfold py_take. destruct (Z.leb_spec 0 n); [|lia].
  rewrite length_take. lia.
Qed.

(** The batch: distinct endpoints of the frontier, at most
    [max_concurrent] of them. *)
Lemma select_spec env i c :
  environment_wf env → 0 ≤ max_concurrent c →
  NoDup (select env i c)
  ∧ (∀ ep, ep ∈ select env i c → ep ∈ discovered_nodes c ∧ ep ∉ crawled_nodes c)
  ∧ Z.of_nat (length (select env i c)) ≤ max_concurrent c.
Proof.
  intros Hwf Hmc. unfold select.
  set (frontier := elements (discovered_nodes c ∖ crawled_nodes c)).
  destruct (Hwf i frontier) as [Hperm _].
  pose proof (py_take_sublist (max_concurrent c) (listing env i frontier)) as Hsub.
  split; [|split].
  - eapply sublist_NoDup; [|exact Hsub]. rewrite Hperm. apply NoDup_elements.
  - intros ep Hep. eapply elem_of_sublist in Hep; [|exact Hsub].
    rewrite Hperm in Hep. apply elem_of_elements in Hep.
    by apply elem_of_difference in Hep.
  - by apply py_take_length.
Qed.

Lemma crawl_loop_eq fuel env i max_nodes c :
  crawl_loop fuel env i max_nodes c =
    if loop_condition c max_nodes then
      match select env (S i) c with
      | [] => Some [c]
      | to_crawl =>
        match fuel with
        | O => None
        | S fuel' =>
          trace ← crawl_loop fuel' env (S i) max_nodes (run_batch env (S i) c to_crawl);
          Some (c :: trace)
        end
      end
    else Some [c].
Proof. destruct fuel; reflexivity. Qed.

#[local] Ltac stop_here c Hc :=
  exists [c], c; split; [done|]; split; [done|];
  constructor; [exact Hc|constructor].

(** The loop ends within the passes it is given, and [boundary] holds at
    each of its iteration boundaries. *)
Lemma crawl_loop_spec env max_nodes B fuel i c :
  environment_wf env →
  0 ≤ max_concurrent c →
  max_nodes + max_concurrent c - 1 ≤ B →
  boundary B c →
  (Z.to_nat (max_nodes - Z.of_nat (size (crawled_nodes c))) ≤ fuel)%nat →
  ∃ trace final,
    crawl_loop fuel env i max_nodes c = Some trace
    ∧ last trace = Some final
    ∧ Forall (boundary B) trace.
Proof.
  intros Hwf. revert i c.
  induction fuel as [|fuel IH]; intros i c Hmc HB Hc Hfuel;
    rewrite crawl_loop_eq.
  - destruct (loop_condition c max_nodes) eqn:Hcond; [|stop_here c Hc].
    destruct (select env (S i) c) as [|ep l]; [stop_here c Hc|].
    unfold loop_condition in Hcond. apply andb_true_iff in Hcond as [Hlt _].
    apply Z.ltb_lt in Hlt. lia.
  - destruct (loop_condition c max_nodes) eqn:Hcond; [|stop_here c Hc].
    destruct (select_spec env (S i) c Hwf Hmc) as (Hnd & Hsel & Hlen).
    destruct (select env (S i) c) as [|ep l] eqn:Esel; [stop_here c Hc|].
    unfold loop_condition in Hcond. apply andb_true_iff in Hcond as [Hlt _].
    apply Z.ltb_lt in Hlt.
    destruct Hc as (Hinv & Hrout & Hsize).
    destruct (run_batch_spec env (S i) c (ep :: l) Hwf Hinv) as (Hinv' & (Hm' & _ & Hr') & Hc').
    { intros x Hx. by apply Hsel. }
    set (c' := run_batch env (S i) c (ep :: l)) in *.
    assert (Hsz : size (crawled_nodes c')
                  = (size (crawled_nodes c) + length (ep :: l))%nat).
    { rewrite Hc', size_union.
      - by rewrite size_list_to_set.
      - intros x Hx Hx'. apply elem_of_list_to_set in Hx'.
        by destruct (Hsel x Hx'). }
    cbn [length] in Hsz, Hlen.
    destruct (IH (S i) c') as (trace & final & -> & Hlast & Hall).
    + congruence.
    + congruence.
    + split; [done|]. split; [by apply Hr'|]. lia.
    + lia.
    + exists (c :: trace), final. split; [done|]. split.
      * destruct trace; [done|]. by rewrite last_cons_cons.
      * constructor; [done|exact Hall].
Qed.

Lemma fresh_crawler mc c :
  BitcoinNodeCrawler mc = Ok c →
  0 ≤ mc ∧ c = Crawler mc ∅ ∅ [] ∅.
Proof.
  unfold BitcoinNodeCrawler. destruct (Z.ltb_spec mc 0); [done|].
  intros [= <-]. done.
Qed.

(** [crawl] on a fresh crawler returns, and [boundary] holds after the
    seed phase and after every batch. *)
Lemma crawl_spec env mc c seed_nodes max_nodes B :
  environment_wf env →
  BitcoinNodeCrawler mc = Ok c →
  0 ≤ B → max_nodes + mc - 1 ≤ B →
  ∃ trace final,
    crawl env c seed_nodes max_nodes = Some trace
    ∧ last trace = Some final
    ∧ Forall (boundary B) trace.
Proof.
  intros Hwf [Hmc ->]%fresh_crawler HB0 HB. unfold crawl.
  set (c0 := Crawler mc ∅ ∅ [] ∅).
  destruct (seeds_spec seed_nodes c0) as ((Hm & _ & Hr) & Hc & Hf).
  set (c1 := fold_left seed seed_nodes c0) in *.
  assert (Hc1 : crawled_nodes c1 = ∅) by (rewrite Hc; done).
  assert (Hf1 : failed_nodes c1 = ∅) by (rewrite Hf; done).
  apply crawl_loop_spec; try done.
  - rewrite Hm. done.
  - rewrite Hm. done.
  - split; [|split].
    + split; [rewrite Hf1|rewrite Hc1]; apply empty_subseteq.
    + apply Hr. intros ep Hep. cbn in Hep. by apply not_elem_of_empty in Hep.
    + rewrite Hc1, size_empty. done.
  - rewrite Hc1, size_empty. lia.
Qed.

(** C1, amended: at every iteration boundary of [crawl] (after the seed
    phase and after each awaited batch) [failed] is included in [crawled]
    and [crawled] in [discovered]: a selected endpoint is added to
    [crawled] and stays in [discovered]. *)
Theorem crawl_registry_invariant env mc c seed_nodes max_nodes :
  environment_wf env →
  BitcoinNodeCrawler mc = Ok c →
  ∃ trace,
    crawl env c seed_nodes max_nodes = Some trace
    ∧ Forall (λ c', failed_nodes c' ⊆ crawled_nodes c'
                    ∧ crawled_nodes c' ⊆ discovered_nodes c') trace.
Proof.
  intros Hwf Hc.
  destruct (crawl_spec env mc c seed_nodes max_nodes
              (Z.max 0 (max_nodes + mc - 1)) Hwf Hc)
    as (trace & final & Htrace & _ & Hall); [lia|lia|].
  exists trace. split; [done|].
  eapply Forall_impl; [exact Hall|]. by intros c' (Hinv & _ & _).
Qed.

(** C6, amended: when [max_nodes + max_concurrent >= 1] the crawl
    returns with [|crawled| <= max_nodes + max_concurrent - 1]. *)
Theorem crawl_soft_ceiling env mc c seed_nodes max_nodes :
  environment_wf env →
  BitcoinNodeCrawler mc = Ok c →
  1 ≤ max_nodes + mc →
  ∃ trace final,
    crawl env c seed_nodes max_nodes = Some trace
    ∧ last trace = Some final
    ∧ Z.of_nat (size (crawled_nodes final)) ≤ max_nodes + mc - 1.
Proof.
  intros Hwf Hc Hpos.
  destruct (crawl_spec env mc c seed_nodes max_nodes (max_nodes + mc - 1) Hwf Hc)
    as (trace & final & Htrace & Hlast & Hall); [lia|lia|].
  exists trace, final. split; [done|]. split; [done|].
  apply last_Some_elem_of in Hlast.
  rewrite Forall_forall in Hall. by destruct (Hall final Hlast) as (_ & _ & ?).
Qed.

(** C7: at every iteration boundary every address in [discovered] parses
    as an IP address and is neither private, loopback nor link-local,
    whether it came from the seeds or from a session; and a string that
    does not parse is rejected by [is_private_ip] as if private. *)
Theorem crawl_discovered_routable env mc c seed_nodes max_nodes :
  environment_wf env →
  BitcoinNodeCrawler mc = Ok c →
  (∃ trace,
     crawl env c seed_nodes max_nodes = Some trace
     ∧ Forall (λ c', ∀ ip port, (ip, port) ∈ discovered_nodes c' →
                 ∃ o, ip_address ip = Some o
                      ∧ is_private o = false
                      ∧ is_loopback o = false
                      ∧ is_link_local o = false) trace)
  ∧ (∀ ip, ip_address ip = None → is_private_ip ip = true).
Proof.
  intros Hwf Hc. split; [|apply is_private_ip_unparseable].
  destruct (crawl_spec env mc c seed_nodes max_nodes
              (Z.max 0 (max_nodes + mc - 1)) Hwf Hc)
    as (trace & final & Htrace & _ & Hall); [lia|lia|].
  exists trace. split; [done|].
  eapply Forall_impl; [exact Hall|].
  intros c' (_ & Hr & _) ip port Hin. exact (Hr (ip, port) Hin).
Qed.

End scheduler.

(** ** The crawler on concrete inputs *)

Lemma tasks_in_order_wf net : environment_wf (tasks_in_order net).
Proof. intros i l. split; reflexivity. Defined.

Lemma crawl_registry_invariant_witness :
  ∃ trace,
    @crawl IPv4.library (tasks_in_order (λ _, refused)) (Crawler 500 ∅ ∅ [] ∅)
           [("1.2.3.4"%string, 8333)] 1000 = Some trace
    ∧ Forall (λ c', failed_nodes c' ⊆ crawled_nodes c'
                    ∧ crawled_nodes c' ⊆ discovered_nodes c') trace.
Proof.
  apply (@crawl_registry_invariant IPv4.library _ 500).
  - apply tasks_in_order_wf.
  - reflexivity.
Defined.

Lemma crawl_soft_ceiling_witness :
  ∃ trace final,
    @crawl IPv4.library (tasks_in_order (λ _, refused)) (Crawler 500 ∅ ∅ [] ∅)
           [("1.2.3.4"%string, 8333)] 1000 = Some trace
    ∧ last trace = Some final
    ∧ Z.of_nat (size (crawled_nodes final)) ≤ 1000 + 500 - 1.
Proof.
  apply (@crawl_soft_ceiling IPv4.library _ 500).
  - apply tasks_in_order_wf.
  - reflexivity.
  - lia.
Defined.

Lemma crawl_discovered_routable_witness :
  (∃ trace,
     @crawl IPv4.library (tasks_in_order (λ _, refused)) (Crawler 500 ∅ ∅ [] ∅)
            [("1.2.3.4"%string, 8333); ("10.0.0.1"%string, 8333)] 1000 = Some trace
     ∧ Forall (λ c', ∀ ip port, (ip, port) ∈ discovered_nodes c' →
                 ∃ o, IPv4.parse ip = Some o
                      ∧ IPv4.private o = false
                      ∧ IPv4.loopback o = false
                      ∧ IPv4.link_local o = false) trace)
  ∧ (∀ ip, IPv4.parse ip = None → @is_private_ip IPv4.library ip = true).
Proof.
  apply (@crawl_discovered_routable IPv4.library _ 500).
  - apply tasks_in_order_wf.
  - reflexivity.
Defined.

(** C1, as stated, fails: after the one batch of [refused_crawl] the
    endpoint is in [crawled] and still in [discovered]. *)
Lemma crawl_discovered_meets_crawled :
  ∃ trace final,
    refused_crawl = Some trace
    ∧ last trace = Some final
    ∧ ("1.2.3.4"%string, 8333) ∈ discovered_nodes final
    ∧ ("1.2.3.4"%string, 8333) ∈ crawled_nodes final
    ∧ discovered_nodes final ∩ crawled_nodes final ≠ ∅.
Proof.
  assert (H : ∃ trace final,
    refused_crawl = Some trace
    ∧ last trace = Some final
    ∧ bool_decide (("1.2.3.4"%string, 8333) ∈ discovered_nodes final) = true
    ∧ bool_decide (("1.2.3.4"%string, 8333) ∈ crawled_nodes final) = true).
  { eexists _, _. split; [vm_compute; reflexivity|].
    split; [reflexivity|]. split; vm_compute; reflexivity. }
  destruct H as (trace & final & Ht & Hl & Hd%bool_decide_eq_true & Hc%bool_decide_eq_true).
  exists trace, final.
  split; [exact Ht|]. split; [exact Hl|]. split; [exact Hd|]. split; [exact Hc|].
  intros Hempty. apply (not_elem_of_empty (C:=gset endpoint) ("1.2.3.4"%string, 8333)).
  rewrite <- Hempty. apply elem_of_intersection.
  split; [exact Hd|exact Hc].
Qed.

(** C6, as stated, fails: with [max_concurrent = 0] and [max_nodes = 0]
    the crawl returns at once with [crawled] empty, and [0] is not below
    [0 + 0 - 1]. *)
Lemma crawl_ceiling_degenerate :
  ∃ c, BitcoinNodeCrawler 0 = Ok c
       ∧ empty_crawl = Some [c]
       ∧ ¬ (Z.of_nat (size (crawled_nodes c)) ≤ 0 + max_concurrent c - 1).
Proof.
  eexists. split; [reflexivity|]. split; [reflexivity|].
  cbn. rewrite size_empty. lia.
Qed.

(** * More of the codec *)

(** ** Var-ints: errors, offsets, over-long forms *)

Lemma slice_app_l a b (d post : bytes) :
  (b ≤ length d)%nat → slice a b (d ++ post) = slice a b d.
Proof.
  intros Hb. rewrite <- (slice_take a b (length d) (d ++ post)) by done.
  by rewrite take_app_length.
Qed.

Lemma slice_app_r a b (pre d : bytes) :
  slice (length pre + a) (length pre + b) (pre ++ d) = slice a b d.
Proof.
  unfold slice. rewrite drop_app_add'; [|done].
  f_equal. lia.
Qed.

(** X1: [varint_encode] raises (a [struct.error]) exactly on a negative value
    and on a value of 65 bits or more. *)
Theorem varint_encode_raises_iff (v : Z) :
  varint_encode v = Raise StructError ↔ v < 0 ∨ 2 ^ 64 ≤ v.
Proof.
  split.
  - intros Hr. destruct (Z.lt_ge_cases v 0) as [|H0]; [by left|].
    destruct (Z.lt_ge_cases v (2 ^ 64)) as [H1|]; [|by right].
    rewrite varint_encode_cases in Hr by lia. discriminate.
  - intros [Hneg|Hbig]; unfold varint_encode.
    + destruct (Z.ltb_spec v 253); [|lia].
      unfold pack_le. destruct (Z.leb_spec 0 v); [lia|done].
    + destruct (Z.ltb_spec v 253); [lia|].
      destruct (Z.leb_spec v 65535); [lia|].
      destruct (Z.leb_spec v 4294967295); [lia|].
      change (pack_le 1 255) with (Ok [xff]).
      cbn [mbind result_mbind result_bind].
      unfold pack_le. destruct (Z.leb_spec 0 v); [|lia].
      change (256 ^ Z.of_nat 8) with (2 ^ 64).
      destruct (Z.ltb_spec v (2 ^ 64)); [lia|done].
Qed.

Lemma varint_encode_raises_iff_witness :
  varint_encode (-1) = Raise StructError.
Proof. apply (proj2 (varint_encode_raises_iff (-1))). left. lia. Defined.

(** Decoding in the middle of a buffer is decoding at its start, moved. *)
Lemma varint_decode_app (pre d : bytes) :
  varint_decode (pre ++ d) (length pre) =
    match varint_decode d 0 with
    | Ok (v, o) => Ok (v, (length pre + o)%nat)
    | Raise e => Raise e
    end.
Proof.
  rewrite varint_decode_0. unfold varint_decode.
  rewrite length_app.
  replace ((pre ++ d) !! length pre) with (d !! 0%nat)
    by (rewrite lookup_app_r by lia; f_equal; lia).
  destruct d as [|b d].
  { cbn [length]. destruct (Nat.leb_spec (length pre + 0) (length pre)); [done|lia]. }
  destruct (Nat.leb_spec (length pre + length (b :: d)) (length pre)) as [Hle|_];
    [cbn [length] in Hle; lia|].
  change ((b :: d) !! 0%nat) with (Some b). cbv iota beta zeta.
  destruct (byte_val b <? 253); [done|].
  assert (Hstep : ∀ w,
    (length pre + length (b :: d) <? length pre + w)%nat = (length (b :: d) <? w)%nat).
  { intros w. destruct (Nat.ltb_spec (length (b :: d)) w);
      [apply Nat.ltb_lt|apply Nat.ltb_ge]; lia. }
  rewrite !Hstep, !slice_app_r.
  destruct (byte_val b =? 253).
  { destruct (Nat.ltb_spec (length (b :: d)) 3); [done|].
    by rewrite (unpack_le_ok 2) by (rewrite slice_length; lia). }
  destruct (byte_val b =? 254).
  { destruct (Nat.ltb_spec (length (b :: d)) 5); [done|].
    by rewrite (unpack_le_ok 4) by (rewrite slice_length; lia). }
  destruct (Nat.ltb_spec (length (b :: d)) 9); [done|].
  by rewrite (unpack_le_ok 8) by (rewrite slice_length; lia).
Qed.

(** Bytes after a var-int do not change what is decoded. *)
Lemma varint_decode_more (d post : bytes) v o :
  varint_decode d 0 = Ok (v, o) → varint_decode (d ++ post) 0 = Ok (v, o).
Proof.
  rewrite !varint_decode_0. destruct d as [|b d]; [done|].
  cbn [app]. change (b :: d ++ post) with ((b :: d) ++ post).
  destruct (byte_val b <? 253); [done|].
  assert (Hlen : ∀ w, (length (b :: d) <? w)%nat = false →
            (length ((b :: d) ++ post) <? w)%nat = false
            ∧ slice 1 w ((b :: d) ++ post) = slice 1 w (b :: d)).
  { intros w Hw. apply Nat.ltb_ge in Hw. split.
    - apply Nat.ltb_ge. rewrite length_app. lia.
    - by apply slice_app_l. }
  destruct (byte_val b =? 253).
  { destruct (length (b :: d) <? 3)%nat eqn:E; [done|].
    destruct (Hlen _ E) as [-> ->]. done. }
  destruct (byte_val b =? 254).
  { destruct (length (b :: d) <? 5)%nat eqn:E; [done|].
    destruct (Hlen _ E) as [-> ->]. done. }
  destruct (length (b :: d) <? 9)%nat eqn:E; [done|].
  destruct (Hlen _ E) as [-> ->]. done.
Qed.

Lemma varint_encode_decode (n : Z) :
  0 ≤ n < 2 ^ 64 →
  ∃ enc, varint_encode n = Ok enc ∧ varint_decode enc 0 = Ok (n, length enc).
Proof.
  intros Hn. rewrite (varint_encode_cases n Hn). eexists; split; [reflexivity|].
  destruct (Z.ltb_spec n 0xFD).
  { by rewrite varint_decode_literal by lia. }
  destruct (Z.leb_spec n 0xFFFF).
  { by rewrite varint_decode_FD by (change (256 ^ 2) with 65536; lia). }
  destruct (Z.leb_spec n 0xFFFFFFFF).
  { by rewrite varint_decode_FE by (change (256 ^ 4) with 4294967296; lia). }
  by rewrite varint_decode_FF by (change (256 ^ 8) with (2 ^ 64); lia).
Qed.

(** X2: the round trip holds at every offset and with anything after the
    var-int: decoding where an encoding of [n] starts gives [n] and the
    offset just past it. *)
Theorem varint_decode_in_buffer (pre post : bytes) (n : Z) :
  0 ≤ n < 2 ^ 64 →
  ∃ enc, varint_encode n = Ok enc
         ∧ varint_decode (pre ++ enc ++ post) (length pre)
           = Ok (n, (length pre + length enc)%nat).
Proof.
  intros Hn. destruct (varint_encode_decode n Hn) as (enc & He & Hd).
  exists enc. split; [done|].
  rewrite varint_decode_app. by rewrite (varint_decode_more enc post n (length enc)).
Qed.

Lemma varint_decode_in_buffer_witness :
  ∃ enc, varint_encode 1000 = Ok enc
         ∧ varint_decode ([x01; x02] ++ enc ++ [x03]) (length [x01; x02])
           = Ok (1000, (length [x01; x02] + length enc)%nat).
Proof. apply (varint_decode_in_buffer [x01; x02] [x03] 1000). lia. Defined.

(** X3: the decoder does not insist on the shortest form: a value below
    [0xFD], which [varint_encode] writes in one byte, is also read from
    its three-byte form, so decoding then encoding does not give the
    bytes back. *)
Theorem varint_decode_overlong (v : Z) :
  0 ≤ v < 0xFD →
  varint_decode (xfd :: le_bytes 2 v) 0 = Ok (v, 3%nat)
  ∧ varint_encode v = Ok [byte_of_Z v].
Proof.
  intros Hv. split.
  - apply varint_decode_FD. change (256 ^ 2) with 65536. lia.
  - rewrite varint_encode_cases by lia.
    destruct (Z.ltb_spec v 253); [done|lia].
Qed.

Lemma varint_decode_overlong_witness :
  varint_decode (xfd :: le_bytes 2 5) 0 = Ok (5, 3%nat)
  ∧ varint_encode 5 = Ok [byte_of_Z 5].
Proof. apply (varint_decode_overlong 5). lia. Defined.

(** ** Frames: any command, any magic, any position *)

Lemma created_frame command payload magic :
  0 ≤ magic < 2 ^ 32 → Z.of_nat (length payload) < 2 ^ 32 →
  ∃ F, create_message command payload magic = Ok F
       ∧ length F = (24 + length payload)%nat
       ∧ frame_magic F = magic
       ∧ frame_command F = rstrip (take 12 command)
       ∧ frame_length F = Z.of_nat (length payload)
       ∧ frame_checksum F = checksum4 payload
       ∧ frame_payload F = payload.
Proof.
  intros Hm Hp. rewrite create_message_ok by done.
  eexists; split; [reflexivity|].
  set (M := le_bytes 4 magic).
  set (C := ljust 12 (take 12 command)).
  set (L := le_bytes 4 (Z.of_nat (length payload))).
  set (K := checksum4 payload).
  destruct (frame_fields M C L K payload) as (HM & HC & HL & HK & HP & Hlen).
  { apply le_bytes_length. }
  { apply ljust_length. rewrite length_take. lia. }
  { apply le_bytes_length. }
  { apply checksum4_length. }
  set (F := M ++ C ++ L ++ K ++ payload) in *.
  assert (Hlength : frame_length F = Z.of_nat (length payload)).
  { unfold frame_length. rewrite HL. apply le_value_bytes.
    change (256 ^ Z.of_nat 4) with (2 ^ 32). lia. }
  split; [exact Hlen|]. split.
  { unfold frame_magic. rewrite HM. apply le_value_bytes.
    change (256 ^ Z.of_nat 4) with (2 ^ 32). lia. }
  split.
  { unfold frame_command. rewrite HC. unfold C, ljust.
    by rewrite rstrip_app_zeros. }
  split; [exact Hlength|]. split; [exact HK|].
  unfold frame_payload, slice. rewrite Hlength, Nat2Z.id, HP.
  apply take_ge. lia.
Qed.

Lemma create_message_raises command payload magic :
  0 ≤ magic < 2 ^ 32 → 2 ^ 32 ≤ Z.of_nat (length payload) →
  create_message command payload magic = Raise StructError.
Proof.
  intros Hm Hp. unfold create_message.
  rewrite (pack_le_ok 4 magic) by (change (256 ^ Z.of_nat 4) with (2 ^ 32); lia).
  cbn [mbind result_mbind result_bind]. unfold pack_le.
  change (256 ^ Z.of_nat 4) with (2 ^ 32).
  destruct (Z.leb_spec 0 (Z.of_nat (length payload))); [|lia].
  destruct (Z.ltb_spec (Z.of_nat (length payload)) (2 ^ 32)); [lia|done].
Qed.

(** X4: what [parse_message] makes of a frame built by [create_message] on
    mainnet, for every command and payload: the command comes back cut to
    12 bytes and stripped of trailing NULs (so the padded constants
    [MSG_VERSION], ... come back as [b'version'], ...), and the payload
    comes back exactly when it is at most 2 MiB long; a longer one is
    built without complaint and then refused.  [create_message] itself
    fails only on a payload whose length does not fit 32 bits. *)
Theorem parse_create_message (command payload : bytes) :
  match create_message command payload MAINNET_MAGIC with
  | Ok F =>
      length F = (24 + length payload)%nat
      ∧ parse_message F =
          Ok (if Z.of_nat (length payload) <=? 2 * 1024 * 1024
              then Some (rstrip (take 12 command), payload)
              else None)
  | Raise e => e = StructError ∧ 2 ^ 32 ≤ Z.of_nat (length payload)
  end.
Proof.
  destruct (Z.lt_ge_cases (Z.of_nat (length payload)) (2 ^ 32)) as [Hp|Hp].
  - destruct (created_frame command payload MAINNET_MAGIC)
      as (F & -> & Hlen & Hmagic & Hcmd & Hlength & Hck & Hpay);
      [unfold MAINNET_MAGIC; lia|done|].
    split; [done|].
    rewrite parse_message_long by lia.
    rewrite Hmagic, Z.eqb_refl, Hlength, Hpay, Hcmd, Hck. cbn [negb].
    change MAX_PAYLOAD with (2 * 1024 * 1024).
    destruct (Z.ltb_spec (2 * 1024 * 1024) (Z.of_nat (length payload)));
      destruct (Z.leb_spec (Z.of_nat (length payload)) (2 * 1024 * 1024));
      try lia; [done|].
    destruct (Z.ltb_spec (Z.of_nat (length F)) (24 + Z.of_nat (length payload))); [lia|].
    by rewrite bool_decide_eq_true_2.
  - rewrite create_message_raises by (unfold MAINNET_MAGIC; lia). done.
Qed.

(** X5: a frame built for another network (testnet, regtest, any 32-bit magic
    other than mainnet's) is refused by [parse_message]. *)
Theorem parse_message_foreign_magic (command payload : bytes) (magic : Z) :
  0 ≤ magic < 2 ^ 32 → magic ≠ MAINNET_MAGIC →
  Z.of_nat (length payload) < 2 ^ 32 →
  ∃ F, create_message command payload magic = Ok F
       ∧ parse_message F = Ok None.
Proof.
  intros Hm Hne Hp.
  destruct (created_frame command payload magic Hm Hp)
    as (F & -> & Hlen & Hmagic & _).
  exists F. split; [done|].
  rewrite parse_message_long by lia. rewrite Hmagic.
  destruct (Z.eqb_spec magic MAINNET_MAGIC); [done|done].
Qed.

Lemma parse_message_foreign_magic_witness :
  ∃ F, create_message MSG_VERACK [] TESTNET_MAGIC = Ok F
       ∧ parse_message F = Ok None.
Proof.
  apply (parse_message_foreign_magic MSG_VERACK [] TESTNET_MAGIC).
  - unfold TESTNET_MAGIC. lia.
  - discriminate.
  - simpl. lia.
Defined.

(** Bytes that follow a decodable frame do not change what is decoded. *)
Lemma parse_message_app (F rest : bytes) cmd payload :
  parse_message F = Ok (Some (cmd, payload)) →
  parse_message (F ++ rest) = Ok (Some (cmd, payload)).
Proof.
  intros HF.
  destruct (Nat.lt_ge_cases (length F) 24) as [Hs|Hl].
  { by rewrite parse_message_short in HF. }
  rewrite parse_message_long in HF by done.
  rewrite parse_message_long by (rewrite length_app; lia).
  assert (Hmagic : frame_magic (F ++ rest) = frame_magic F).
  { unfold frame_magic. by rewrite slice_app_l by lia. }
  assert (Hlength : frame_length (F ++ rest) = frame_length F).
  { unfold frame_length. by rewrite slice_app_l by lia. }
  assert (Hck : frame_checksum (F ++ rest) = frame_checksum F).
  { unfold frame_checksum. by rewrite slice_app_l by lia. }
  assert (Hcmd : frame_command (F ++ rest) = frame_command F).
  { unfold frame_command. by rewrite slice_app_l by lia. }
  rewrite Hmagic, Hlength, Hck, Hcmd.
  destruct (negb (frame_magic F =? MAINNET_MAGIC)); [done|].
  destruct (MAX_PAYLOAD <? frame_length F); [done|].
  destruct (Z.ltb_spec (Z.of_nat (length F)) (24 + frame_length F)) as [|Hn]; [done|].
  pose proof (le_value_range (slice 16 20 F)) as Hr. fold (frame_length F) in Hr.
  assert (Hpay : frame_payload (F ++ rest) = frame_payload F).
  { unfold frame_payload. rewrite Hlength. apply slice_app_l. lia. }
  rewrite Hpay.
  destruct (Z.ltb_spec (Z.of_nat (length (F ++ rest))) (24 + frame_length F));
    [rewrite length_app in *; lia|done].
Qed.

(** X6: frames can be read out of a stream: where a frame built by
    [create_message] starts in a buffer, whatever precedes and follows it,
    [decode_frame] returns its command and payload and the offset just
    past it. *)
Theorem decode_frame_in_stream (pre post command payload : bytes) :
  Z.of_nat (length payload) ≤ 2 * 1024 * 1024 →
  ∃ F, create_message command payload MAINNET_MAGIC = Ok F
       ∧ decode_frame (pre ++ F ++ post) (length pre)
         = Ok (Some (rstrip (take 12 command), payload, (length pre + length F)%nat)).
Proof.
  intros Hp.
  destruct (created_frame command payload MAINNET_MAGIC)
    as (F & -> & Hlen & Hmagic & Hcmd & Hlength & Hck & Hpay);
    [unfold MAINNET_MAGIC; lia|lia|].
  exists F. split; [done|].
  assert (HF : parse_message F = Ok (Some (rstrip (take 12 command), payload))).
  { rewrite parse_message_long by lia.
    rewrite Hmagic, Z.eqb_refl, Hlength, Hpay, Hcmd, Hck. cbn [negb].
    destruct (Z.ltb_spec MAX_PAYLOAD (Z.of_nat (length payload))) as [Hgt|_];
      [unfold MAX_PAYLOAD in Hgt; lia|].
    destruct (Z.ltb_spec (Z.of_nat (length F)) (24 + Z.of_nat (length payload))); [lia|].
    by rewrite bool_decide_eq_true_2. }
  unfold decode_frame. rewrite drop_app_length.
  rewrite (parse_message_app F post _ _ HF).
  cbn [mbind result_mbind result_bind]. by rewrite Hlen.
Qed.

Lemma decode_frame_in_stream_witness :
  ∃ F, create_message MSG_ADDR [x00] MAINNET_MAGIC = Ok F
       ∧ decode_frame ([x01; x02] ++ F ++ [x03]) (length [x01; x02])
         = Ok (Some (rstrip (take 12 MSG_ADDR), [x00],
                     (length [x01; x02] + length F)%nat)).
Proof. apply (decode_frame_in_stream [x01; x02] [x03] MSG_ADDR [x00]). simpl. lia. Defined.

(** ** [addr] payloads: how many, what shape, which records *)

Lemma addr_loop_bounds n data offset acc :
  ∃ more, addr_loop n data offset acc = Ok (acc ++ more)
          ∧ (length more ≤ n)%nat
          ∧ (more = [] ∨ (offset + 30 * length more ≤ length data)%nat)
          ∧ Forall addr_shape more.
Proof.
  revert offset acc. induction n as [|n IH]; intros offset acc.
  { exists []. rewrite app_nil_r.
    split; [done|]. split; [cbn; lia|]. split; [by left|constructor]. }
  destruct (Nat.lt_ge_cases (length data) (offset + 30)) as [Hs|Hl].
  { exists []. rewrite app_nil_r, addr_loop_break by done.
    split; [done|]. split; [cbn; lia|]. split; [by left|constructor]. }
  rewrite addr_loop_step by done. cbv zeta.
  destruct (ip_prefix_ok _).
  - edestruct IH as (more & -> & Hlen & Hfit & Hshape).
    rewrite <- app_assoc. eexists. split; [reflexivity|].
    cbn [app length]. split; [lia|]. split.
    + right. destruct Hfit as [->|Hfit]; cbn [length]; lia.
    + constructor; [|exact Hshape]. unfold addr_shape. split; [|split].
      * assert (Hip : length (slice 14 18 (slice (offset + 12) (offset + 28) data)) = 2%nat).
        { unfold slice at 1. rewrite length_take, length_drop, slice_length by lia. lia. }
        destruct (slice 14 18 _) as [|x [|y [|? ?]]]; try discriminate Hip.
        by exists x, y.
      * pose proof (le_value_range (rev (slice (offset + 28) (offset + 30) data))) as Hr.
        rewrite length_rev, slice_length in Hr by lia.
        replace (offset + 30 - (offset + 28))%nat with 2%nat in Hr by lia.
        change (256 ^ Z.of_nat 2) with (2 ^ 16) in Hr. done.
      * pose proof (le_value_range (slice offset (offset + 4) data)) as Hr.
        rewrite slice_length in Hr by lia.
        replace (offset + 4 - offset)%nat with 4%nat in Hr by lia.
        change (256 ^ Z.of_nat 4) with (2 ^ 32) in Hr. done.
  - edestruct IH as (more & -> & Hlen & Hfit & Hshape).
    eexists. split; [reflexivity|]. split; [lia|]. split; [|done].
    destruct Hfit as [->|Hfit]; [by left|right; lia].
Qed.

(** X7: [parse_addr_message] returns at most 1000 addresses, no more than the
    count announces, and no more than the payload has room for at 30
    bytes each; a payload whose count cannot be read gives none. *)
Theorem parse_addr_message_bounds (data : bytes) :
  ∃ addresses,
    parse_addr_message data = Ok addresses
    ∧ (length addresses ≤ 1000)%nat
    ∧ (30 * length addresses ≤ length data)%nat
    ∧ match varint_decode data 0 with
      | Ok (count, _) => Z.of_nat (length addresses) ≤ count
      | Raise _ => addresses = []
      end.
Proof.
  unfold parse_addr_message, parse_addr_body.
  destruct (length data <? 1)%nat eqn:El.
  { exists []. split; [done|]. split; [cbn; lia|]. split; [cbn; lia|].
    apply Nat.ltb_lt in El. destruct data; [done|cbn in El; lia]. }
  destruct (varint_decode data 0) as [[count offset]|e] eqn:E.
  - cbn [mbind result_mbind result_bind].
    destruct (addr_loop_bounds (Z.to_nat (Z.min count 1000)) data offset [])
      as (more & -> & Hlen & Hfit & _).
    exists more. cbn [app]. split; [done|].
    assert (0 ≤ count).
    { rewrite varint_decode_0 in E. destruct data as [|b data]; [done|].
      pose proof (byte_val_range b).
      pose proof (le_value_range (slice 1 3 (b :: data))).
      pose proof (le_value_range (slice 1 5 (b :: data))).
      pose proof (le_value_range (slice 1 9 (b :: data))).
      repeat case_match; simplify_eq; lia. }
    split; [lia|]. split; [|lia].
    destruct Hfit as [->|Hfit]; [cbn; lia|lia].
  - apply varint_decode_raises in E as ->.
    exists []. cbn [mbind result_mbind result_bind].
    split; [done|]. split; [cbn; lia|]. split; [cbn; lia|done].
Qed.

(** X8: every address [parse_addr_message] returns has a port of 16 bits, a
    timestamp of 32 bits, and an IP string made of two decimal numbers
    joined by a dot (the last two bytes of the 16-byte field): never a
    dotted quad. *)
Theorem parse_addr_message_shape (data : bytes) :
  ∃ addresses,
    parse_addr_message data = Ok addresses
    ∧ Forall (λ a, (∃ x y : byte, a.1.1 = dotted [x; y])
                   ∧ 0 ≤ a.1.2 < 2 ^ 16 ∧ 0 ≤ a.2 < 2 ^ 32) addresses.
Proof.
  unfold parse_addr_message, parse_addr_body.
  destruct (length data <? 1)%nat; [by exists []|].
  destruct (varint_decode data 0) as [[count offset]|e] eqn:E.
  - cbn [mbind result_mbind result_bind].
    destruct (addr_loop_bounds (Z.to_nat (Z.min count 1000)) data offset [])
      as (more & -> & _ & _ & Hshape).
    exists more. split; [done|].
    eapply Forall_impl; [exact Hshape|]. by intros [[ip port] ts].
  - apply varint_decode_raises in E as ->. by exists [].
Qed.

Lemma addr_loop_records (records : list bytes) (pre post : bytes) acc :
  Forall (λ r, length r = 30%nat) records →
  addr_loop (length records) (pre ++ concat records ++ post) (length pre) acc
  = Ok (acc ++ map record_addr (filter (λ r, record_ok r = true) records)).
Proof.
  intros Hrec. revert pre acc.
  induction Hrec as [|r records Hr _ IH]; intros pre acc.
  { cbn. by rewrite app_nil_r. }
  cbn [length concat].
  assert (Hdata : pre ++ (r ++ concat records) ++ post
                  = (pre ++ r) ++ concat records ++ post)
    by (by rewrite <- !app_assoc).
  rewrite addr_loop_step by (rewrite !length_app; lia). cbv zeta.
  assert (Hslice : ∀ a b, (b ≤ 30)%nat →
            slice (length pre + a) (length pre + b)
                  (pre ++ (r ++ concat records) ++ post) = slice a b r).
  { intros a b Hb. rewrite slice_app_r, <- app_assoc. apply slice_app_l. lia. }
  rewrite !Hslice by lia.
  replace (slice (length pre) (length pre + 4) (pre ++ (r ++ concat records) ++ post))
    with (slice 0 4 r)
    by (rewrite <- (Hslice 0%nat 4%nat) by lia; by rewrite Nat.add_0_r).
  replace (length pre + 30)%nat with (length (pre ++ r))
    by (rewrite length_app; lia).
  rewrite Hdata. fold (record_ok r).
  destruct (record_ok r) eqn:Hok.
  - rewrite IH. rewrite filter_cons_True by done.
    cbn [map]. rewrite <- app_assoc. reflexivity.
  - rewrite IH. rewrite filter_cons_False by (rewrite Hok; done). reflexivity.
Qed.

(** X9: on a payload that is a count followed by that many 30-byte records
    (at most 1000), whatever follows them, [parse_addr_message] returns, in
    order, one tuple for each record whose address field starts with
    twelve zero bytes and [FF FF], wherever it stands among the others:
    the records that fail the test are stepped over, 30 bytes each. *)
Theorem parse_addr_message_records (records : list bytes) (post : bytes) :
  Forall (λ r, length r = 30%nat) records →
  (length records ≤ 1000)%nat →
  ∃ count,
    varint_encode (Z.of_nat (length records)) = Ok count
    ∧ parse_addr_message (count ++ concat records ++ post)
      = Ok (map record_addr (filter (λ r, record_ok r = true) records)).
Proof.
  intros Hrec Hn.
  destruct (varint_encode_decode (Z.of_nat (length records))) as (count & He & Hd); [lia|].
  exists count. split; [done|].
  assert (Hcount : count ≠ []) by (intros ->; done).
  unfold parse_addr_message, parse_addr_body.
  destruct (Nat.ltb_spec (length (count ++ concat records ++ post)) 1) as [Hl|_].
  { rewrite length_app in Hl. destruct count; [done|cbn in Hl; lia]. }
  rewrite (varint_decode_more count _ _ _ Hd).
  cbn [mbind result_mbind result_bind].
  replace (Z.to_nat (Z.min (Z.of_nat (length records)) 1000)) with (length records) by lia.
  by rewrite addr_loop_records.
Qed.

Lemma parse_addr_message_records_witness :
  ∃ count,
    varint_encode (Z.of_nat (length [s4_ipv6_record; twelve_zero_record])) = Ok count
    ∧ parse_addr_message (count ++ concat [s4_ipv6_record; twelve_zero_record] ++ [x00])
      = Ok (map record_addr
              (filter (λ r, record_ok r = true) [s4_ipv6_record; twelve_zero_record])).
Proof.
  apply (parse_addr_message_records [s4_ipv6_record; twelve_zero_record] [x00]).
  - repeat constructor.
  - simpl. lia.
Defined.

(** * The [version] message *)

Section version.
Context `{txt : PyText}.

Lemma parse_version_body_cases (payload : bytes) :
  parse_version_body payload =
    Ok (if (length payload <? 4)%nat then ∅
        else if (length payload <? 12)%nat
        then {[ "version"%string := PyInt (le_value (slice 0 4 payload)) ]}
        else if (length payload <? 20)%nat
        then <[ "services"%string := PyInt (le_value (slice 4 12 payload)) ]>
               {[ "version"%string := PyInt (le_value (slice 0 4 payload)) ]}
        else <[ "user_agent"%string := PyStr (read_user_agent payload 80) ]>
               (<[ "timestamp"%string := PyInt (le_value (slice 12 20 payload)) ]>
                  (<[ "services"%string := PyInt (le_value (slice 4 12 payload)) ]>
                     {[ "version"%string := PyInt (le_value (slice 0 4 payload)) ]}))).
Proof.
  unfold parse_version_body. cbv zeta.
  change (0 + 4)%nat with 4%nat. change (4 + 8)%nat with 12%nat.
  change (12 + 8)%nat with 20%nat.
  change (20 + 26 + 26 + 8)%nat with 80%nat.
  destruct (Nat.ltb_spec (length payload) 4); [done|].
  rewrite (unpack_le_ok 4) by (rewrite slice_length; lia).
  cbn [mbind result_mbind result_bind].
  destruct (Nat.ltb_spec (length payload) 12); [done|].
  rewrite (unpack_le_ok 8 (slice 4 12 payload)) by (rewrite slice_length; lia).
  cbn [mbind result_mbind result_bind].
  destruct (Nat.ltb_spec (length payload) 20); [done|].
  rewrite (unpack_le_ok 8 (slice 12 20 payload)) by (rewrite slice_length; lia).
  done.
Qed.

(** X10: [_parse_version_payload] gives the fields that a truncated payload
    still holds whole: [version] from 4 bytes on, [services] from 12,
    [timestamp] and [user_agent] from 20; and the user agent is [''] for
    a payload that stops within its first 80 bytes.  No input makes the
    body raise. *)
Theorem parse_version_payload_fields (payload : bytes) :
  parse_version_body payload = Ok (_parse_version_payload payload)
  ∧ _parse_version_payload payload !! "version"%string
    = (if (length payload <? 4)%nat then None
       else Some (PyInt (le_value (slice 0 4 payload))))
  ∧ _parse_version_payload payload !! "services"%string
    = (if (length payload <? 12)%nat then None
       else Some (PyInt (le_value (slice 4 12 payload))))
  ∧ _parse_version_payload payload !! "timestamp"%string
    = (if (length payload <? 20)%nat then None
       else Some (PyInt (le_value (slice 12 20 payload))))
  ∧ _parse_version_payload payload !! "user_agent"%string
    = (if (length payload <? 20)%nat then None
       else if (length payload <=? 80)%nat then Some (PyStr empty_text)
       else Some (PyStr (read_user_agent payload 80))).
Proof.
  unfold _parse_version_payload. rewrite parse_version_body_cases.
  split; [done|].
  destruct (Nat.ltb_spec (length payload) 4).
  { destruct (Nat.ltb_spec (length payload) 12); [|lia].
    destruct (Nat.ltb_spec (length payload) 20); [|lia]. done. }
  destruct (Nat.ltb_spec (length payload) 12).
  { destruct (Nat.ltb_spec (length payload) 20); [|lia].
    repeat split; by simplify_map_eq. }
  destruct (Nat.ltb_spec (length payload) 20).
  { repeat split; by simplify_map_eq. }
  split; [by simplify_map_eq|]. split; [by simplify_map_eq|].
  split; [by simplify_map_eq|].
  rewrite lookup_insert_eq.
  destruct (Nat.leb_spec (length payload) 80) as [Hle|]; [|done].
  unfold read_user_agent.
  destruct (Nat.ltb_spec 80 (length payload)); [lia|done].
Qed.

End version.

Lemma parse_created_frame command payload :
  Z.of_nat (length payload) ≤ 2 * 1024 * 1024 →
  ∃ F, create_message command payload MAINNET_MAGIC = Ok F
       ∧ length F = (24 + length payload)%nat
       ∧ parse_message F = Ok (Some (rstrip (take 12 command), payload)).
Proof.
  intros Hp.
  destruct (created_frame command payload MAINNET_MAGIC)
    as (F & -> & Hlen & Hmagic & Hcmd & Hlength & Hck & Hpay);
    [unfold MAINNET_MAGIC; lia|lia|].
  exists F. split; [done|]. split; [done|].
  rewrite parse_message_long by lia.
  rewrite Hmagic, Z.eqb_refl, Hlength, Hpay, Hcmd, Hck. cbn [negb].
  destruct (Z.ltb_spec MAX_PAYLOAD (Z.of_nat (length payload))) as [Hgt|_];
    [unfold MAX_PAYLOAD in Hgt; lia|].
  destruct (Z.ltb_spec (Z.of_nat (length F)) (24 + Z.of_nat (length payload))); [lia|].
  by rewrite bool_decide_eq_true_2.
Qed.

Lemma py_bytes_ok (l : list Z) :
  Forall (λ x, 0 ≤ x < 256) l → py_bytes l = Ok (map byte_of_Z l).
Proof.
  intros Hl. unfold py_bytes.
  replace (forallb _ l) with true; [done|].
  symmetry. apply forallb_forall. intros x Hx%list_elem_of_In.
  rewrite Forall_forall in Hl. specialize (Hl x Hx).
  apply andb_true_iff. split; [apply Z.leb_le|apply Z.ltb_lt]; lia.
Qed.

Lemma pack_be_ok w v :
  0 ≤ v < 256 ^ Z.of_nat w → pack_be w v = Ok (rev (le_bytes w v)).
Proof.
  intros [H0 H1]. unfold pack_be.
  apply Z.leb_le in H0. apply Z.ltb_lt in H1. by rewrite H0, H1.
Qed.

Lemma version_fields (V S T R : bytes) :
  length V = 4%nat → length S = 8%nat → length T = 8%nat →
  slice 0 4 (V ++ S ++ T ++ R) = V
  ∧ slice 4 12 (V ++ S ++ T ++ R) = S
  ∧ slice 12 20 (V ++ S ++ T ++ R) = T
  ∧ length (V ++ S ++ T ++ R) = (20 + length R)%nat.
Proof.
  intros HV HS HT.
  do 5 (destruct V as [|? V]; try discriminate HV).
  do 9 (destruct S as [|? S]; try discriminate HS).
  do 9 (destruct T as [|? T]; try discriminate HT).
  split; [done|]. split; [done|]. split; done.
Qed.

Section version_roundtrip.
Context `{txt : PyText}.

Lemma encode_ip_ok services ip port parts :
  int_parts ip = Ok parts → Forall (λ x, 0 ≤ x < 256) parts →
  0 ≤ services < 2 ^ 64 → 0 ≤ port < 2 ^ 16 →
  ∃ a, encode_ip services ip port = Ok a ∧ length a = (22 + length parts)%nat.
Proof.
  intros Hparts Hrange Hs Hp. unfold encode_ip. rewrite Hparts.
  cbn [mbind result_mbind result_bind].
  rewrite py_bytes_ok.
  2:{ apply Forall_app. split; [by repeat constructor|].
      apply Forall_app. split; [by repeat constructor|done]. }
  cbn [mbind result_mbind result_bind].
  rewrite (pack_le_ok 8) by (change (256 ^ Z.of_nat 8) with (2 ^ 64); lia).
  cbn [mbind result_mbind result_bind].
  rewrite (pack_be_ok 2) by (change (256 ^ Z.of_nat 2) with (2 ^ 16); lia).
  cbn [mbind result_mbind result_bind].
  eexists. split; [reflexivity|].
  rewrite !length_app, length_map, !length_app, length_rev, !le_bytes_length.
  cbn [length replicate]. lia.
Qed.

(** X11: a [version] message built by [create_version_message] from fields in
    range, two addresses of four parts each and a user agent whose UTF-8
    form has one byte per character and at most 2 MiB - 90 bytes, so that
    the payload is within the 2 MiB that [parse_message] allows, is a
    frame that [parse_message] accepts with command [b'version'], and
    [_parse_version_payload] reads back from its payload the version, the
    services, the timestamp and the user agent. *)
Theorem version_roundtrip (version services timestamp nonce start_height : Z)
    (addr_recv addr_from : text * Z) (user_agent : text) (relay : bool)
    (parts_recv parts_from : list Z) (ua_bytes : bytes) :
  0 ≤ version < 2 ^ 32 → 0 ≤ services < 2 ^ 64 → 0 ≤ timestamp < 2 ^ 64 →
  0 ≤ nonce < 2 ^ 64 → 0 ≤ start_height < 2 ^ 32 →
  int_parts addr_recv.1 = Ok parts_recv → int_parts addr_from.1 = Ok parts_from →
  length parts_recv = 4%nat → length parts_from = 4%nat →
  Forall (λ x, 0 ≤ x < 256) parts_recv → Forall (λ x, 0 ≤ x < 256) parts_from →
  0 ≤ addr_recv.2 < 2 ^ 16 → 0 ≤ addr_from.2 < 2 ^ 16 →
  encode_utf8 user_agent = Ok ua_bytes →
  length ua_bytes = text_len user_agent →
  Z.of_nat (length ua_bytes) ≤ 2 * 1024 * 1024 - 90 →
  ∃ payload F,
    version_payload version services timestamp addr_recv addr_from nonce
                    user_agent start_height relay = Ok payload
    ∧ create_version_message version services timestamp addr_recv addr_from nonce
                             user_agent start_height relay = Ok F
    ∧ parse_message F = Ok (Some (CMD_VERSION, payload))
    ∧ _parse_version_payload payload
      = <[ "user_agent"%string := PyStr (decode_utf8_ignore ua_bytes) ]>
          (<[ "timestamp"%string := PyInt timestamp ]>
             (<[ "services"%string := PyInt services ]>
                {[ "version"%string := PyInt version ]})).
Proof.
  intros Hv Hs Ht Hn Hh Hpr Hpf Hlr Hlf Hrr Hrf Hportr Hportf Hua Hlen Hsmall.
  destruct (encode_ip_ok services addr_recv.1 addr_recv.2 parts_recv)
    as (r & Hr & Hrlen); try done.
  destruct (encode_ip_ok services addr_from.1 addr_from.2 parts_from)
    as (f & Hf & Hflen); try done.
  destruct (varint_encode_decode (Z.of_nat (text_len user_agent)))
    as (l & Hl & Hld); [lia|].
  assert (Hpayload :
    version_payload version services timestamp addr_recv addr_from nonce
                    user_agent start_height relay
    = Ok (le_bytes 4 version ++ le_bytes 8 services ++ le_bytes 8 timestamp
          ++ r ++ f ++ le_bytes 8 nonce ++ (l ++ ua_bytes)
          ++ le_bytes 4 start_height ++ (if relay then [x01] else [x00]))).
  { unfold version_payload.
    rewrite (pack_le_ok 4 version) by (change (256 ^ Z.of_nat 4) with (2 ^ 32); lia).
    rewrite (pack_le_ok 8 services) by (change (256 ^ Z.of_nat 8) with (2 ^ 64); lia).
    rewrite (pack_le_ok 8 timestamp) by (change (256 ^ Z.of_nat 8) with (2 ^ 64); lia).
    rewrite (pack_le_ok 8 nonce) by (change (256 ^ Z.of_nat 8) with (2 ^ 64); lia).
    rewrite (pack_le_ok 4 start_height) by (change (256 ^ Z.of_nat 4) with (2 ^ 32); lia).
    rewrite Hr, Hf, Hl, Hua. reflexivity. }
  set (V := le_bytes 4 version) in *. set (S := le_bytes 8 services) in *.
  set (T := le_bytes 8 timestamp) in *. set (N := le_bytes 8 nonce) in *.
  set (H := le_bytes 4 start_height) in *.
  set (B := if relay then [x01] else [x00]) in *.
  set (payload := V ++ S ++ T ++ r ++ f ++ N ++ (l ++ ua_bytes) ++ H ++ B) in *.
  assert (HlV : length V = 4%nat) by apply le_bytes_length.
  assert (HlS : length S = 8%nat) by apply le_bytes_length.
  assert (HlT : length T = 8%nat) by apply le_bytes_length.
  assert (HlN : length N = 8%nat) by apply le_bytes_length.
  assert (HlH : length H = 4%nat) by apply le_bytes_length.
  assert (HlB : length B = 1%nat) by (unfold B; by destruct relay).
  assert (Hl1 : (1 ≤ length l ≤ 5)%nat).
  { clear -Hl Hlen Hsmall. rewrite varint_encode_cases in Hl by lia.
    injection Hl as <-.
    destruct (Z.ltb_spec (Z.of_nat (text_len user_agent)) 253); [cbn; lia|].
    destruct (Z.leb_spec (Z.of_nat (text_len user_agent)) 65535);
      [cbn [length]; lia|].
    destruct (Z.leb_spec (Z.of_nat (text_len user_agent)) 4294967295); [|lia].
    cbn [length]; lia. }
  set (pre := V ++ S ++ T ++ r ++ f ++ N).
  assert (Hpre : length pre = 80%nat).
  { unfold pre. rewrite !length_app. lia. }
  assert (Hsplit : payload = pre ++ l ++ ua_bytes ++ H ++ B).
  { unfold payload, pre. by rewrite <- !app_assoc. }
  assert (Hplen : length payload = (80 + length l + length ua_bytes + 5)%nat).
  { rewrite Hsplit, !length_app. lia. }
  destruct (version_fields V S T (r ++ f ++ N ++ (l ++ ua_bytes) ++ H ++ B))
    as (HsV & HsS & HsT & _); try done.
  fold payload in HsV, HsS, HsT.
  destruct (parse_created_frame MSG_VERSION payload) as (F & HF & _ & Hparse); [lia|].
  exists payload, F.
  split; [exact Hpayload|]. split.
  { unfold create_version_message. rewrite Hpayload. exact HF. }
  split; [exact Hparse|].
  unfold _parse_version_payload. rewrite parse_version_body_cases.
  destruct (Nat.ltb_spec (length payload) 4); [lia|].
  destruct (Nat.ltb_spec (length payload) 12); [lia|].
  destruct (Nat.ltb_spec (length payload) 20); [lia|].
  rewrite HsV, HsS, HsT.
  unfold V, S, T.
  rewrite !le_value_bytes by
    (first [change (256 ^ Z.of_nat 4) with (2 ^ 32)
           |change (256 ^ Z.of_nat 8) with (2 ^ 64)]; lia).
  do 2 f_equal.
  unfold read_user_agent.
  destruct (Nat.ltb_spec 80 (length payload)); [|lia].
  rewrite Hsplit at 1. rewrite <- Hpre at 1.
  rewrite varint_decode_app.
  rewrite (varint_decode_more l (ua_bytes ++ H ++ B) _ _ Hld).
  rewrite Hpre.
  destruct (Z.leb_spec (Z.of_nat (80 + length l) + Z.of_nat (text_len user_agent))
                       (Z.of_nat (length payload))); [|lia].
  f_equal. rewrite Nat2Z.id, <- Hlen.
  rewrite Hsplit, app_assoc.
  replace (80 + length l)%nat with (length (pre ++ l)) by (rewrite length_app; lia).
  rewrite <- (Nat.add_0_r (length (pre ++ l))) at 1.
  rewrite slice_app_r. rewrite slice_app_l by lia.
  unfold slice. rewrite drop_0, Nat.sub_0_r. by rewrite take_ge by lia.
Qed.

End version_roundtrip.

Lemma version_roundtrip_witness :
  ∃ payload F,
    @version_payload AsciiText.library 70015 1 1700000000
       ("0.0.0.0"%string, 0) ("0.0.0.0"%string, 0) 42
       "/BitcoinCrawler:0.1/"%string 0 true = Ok payload
    ∧ @create_version_message AsciiText.library 70015 1 1700000000
       ("0.0.0.0"%string, 0) ("0.0.0.0"%string, 0) 42
       "/BitcoinCrawler:0.1/"%string 0 true = Ok F
    ∧ parse_message F = Ok (Some (CMD_VERSION, payload))
    ∧ @_parse_version_payload AsciiText.library payload
      = <[ "user_agent"%string :=
             @PyStr AsciiText.library
               (@decode_utf8_ignore AsciiText.library
                  (list_byte_of_string "/BitcoinCrawler:0.1/")) ]>
          (<[ "timestamp"%string := PyInt 1700000000 ]>
             (<[ "services"%string := PyInt 1 ]>
                {[ "version"%string := PyInt 70015 ]})).
Proof.
  apply (@version_roundtrip AsciiText.library 70015 1 1700000000 42 0
           ("0.0.0.0"%string, 0) ("0.0.0.0"%string, 0)
           "/BitcoinCrawler:0.1/"%string true [0; 0; 0; 0] [0; 0; 0; 0]
           (list_byte_of_string "/BitcoinCrawler:0.1/")).
  all: try lia.
  all: try reflexivity.
  all: try (repeat constructor; lia).
  all: simpl; lia.
Defined.

(** * More of the session *)

(** X13: the handshake step reads with [reader.read(1024)].  When the peer's
    reply is one frame built by [create_message] and the read brings its
    first 1024 bytes, the whole frame if it is shorter, the step accepts
    it, under the command as [parse_message] reports it, exactly when the
    payload has at most 1000 bytes: a longer frame is cut by the read and
    refused.  Padded constants such as [MSG_VERSION] and [MSG_VERACK]
    are matched by [b'version'] and [b'verack'].  [create_message]
    itself raises only for a payload of [2 ^ 32] bytes or more. *)
Theorem expect_created (command payload : bytes) :
  match create_message command payload MAINNET_MAGIC with
  | Ok F =>
      length F = (24 + length payload)%nat
      ∧ expect (rstrip (take 12 command)) (ReadData (take 1024 F))
        = if Z.of_nat (length payload) <=? 1000 then Some payload else None
  | Raise e => e = StructError ∧ 2 ^ 32 ≤ Z.of_nat (length payload)
  end.
Proof.
  destruct (Z.lt_ge_cases (Z.of_nat (length payload)) (2 ^ 32)) as [Hp|Hp].
  2:{ rewrite create_message_raises by (unfold MAINNET_MAGIC; lia). done. }
  destruct (created_frame command payload MAINNET_MAGIC)
    as (F & HF & Hlen & Hmagic & Hcmd & Hlength & Hck & Hpay);
    [unfold MAINNET_MAGIC; lia|lia|].
  rewrite HF. split; [done|].
  destruct (Z.leb_spec (Z.of_nat (length payload)) 1000) as [Hs|Hs].
  - rewrite (take_ge F 1024) by lia.
    destruct (parse_created_frame command payload) as (F' & HF' & _ & Hparse);
      [lia|].
    rewrite HF in HF'. injection HF' as <-.
    unfold expect. destruct F as [|b F]; [cbn in Hlen; lia|].
    rewrite Hparse. by rewrite bool_decide_eq_true_2.
  - assert (Hcut : length (take 1024 F) = 1024%nat) by (rewrite length_take; lia).
    assert (Hnone : parse_message (take 1024 F) = Ok None).
    { rewrite parse_message_long by lia.
      assert (Hfl : frame_length (take 1024 F) = Z.of_nat (length payload)).
      { unfold frame_length. rewrite slice_take by lia. exact Hlength. }
      rewrite Hfl, Hcut.
      destruct (negb _); [done|].
      destruct (MAX_PAYLOAD <? _); [done|].
      destruct (Z.ltb_spec (Z.of_nat 1024) (24 + Z.of_nat (length payload)));
        [done|lia]. }
    unfold expect. rewrite Hnone.
    destruct (take 1024 F) eqn:E; [cbn in Hcut; lia|done].
Qed.

(** X14: a session returns a record exactly when the connection is made, both
    handshake reads bring the expected frame and the connection closes
    cleanly, whatever the [addr] reads bring; the record carries the
    endpoint of the session and the payload of the peer's [version]. *)
Theorem session_return_cases (ep : endpoint) (t : transcript) :
  match session_return ep t with
  | Some ni =>
      ni_ip ni = ep.1 ∧ ni_port ni = ep.2
      ∧ connect_ok t = true ∧ close_ok t = true
      ∧ expect CMD_VERSION (version_response t) = Some (ni_version_payload ni)
      ∧ is_Some (expect CMD_VERACK (verack_response t))
  | None =>
      connect_ok t = false ∨ close_ok t = false
      ∨ expect CMD_VERSION (version_response t) = None
      ∨ expect CMD_VERACK (verack_response t) = None
  end.
Proof.
  unfold session_return.
  destruct (connect_ok t); cbn [negb]; [|by left].
  destruct (expect CMD_VERSION (version_response t)) as [v|] eqn:Hv.
  2:{ unfold exchange. rewrite Hv. by right; right; left. }
  destruct (expect CMD_VERACK (verack_response t)) as [a|] eqn:Ha.
  2:{ unfold exchange. rewrite Hv, Ha. by right; right; right. }
  destruct (exchange_completes t v a Hv Ha) as [new_peers ->].
  destruct (close_ok t); [|by right; left].
  cbn. by repeat split.
Qed.

Lemma drain_take n attempts reads addr_data new_peers :
  drain n attempts reads addr_data new_peers
  = drain n attempts (take n reads) addr_data new_peers.
Proof.
  revert attempts reads addr_data new_peers.
  induction n as [|n IH]; intros attempts reads addr_data new_peers; [done|].
  destruct reads as [|r reads]; [done|].
  cbn [drain take firstn hd tl].
  destruct r as [| |[|b chunk]]; try done; try apply IH.
  destruct (scan_frames _ _ _ _) as [peers [e|]]; [done|].
  destruct (_ && _); [done|apply IH].
Qed.

(** X15: the drain loop makes at most eight reads: what the network would
    send after them has no effect on the session. *)
Theorem drain_eight_reads (reads more : list read_result) :
  length reads = 8%nat →
  drain 8 0 (reads ++ more) [] [] = drain 8 0 reads [] [].
Proof.
  intros Hlen. rewrite (drain_take 8 0 (reads ++ more)).
  by rewrite take_app_length' by done.
Qed.

Lemma drain_eight_reads_witness :
  drain 8 0 (replicate 8 (ReadData []) ++ [ReadData [x01]]) [] []
  = drain 8 0 (replicate 8 (ReadData [])) [] [].
Proof. apply (drain_eight_reads (replicate 8 (ReadData [])) [ReadData [x01]]). reflexivity. Defined.

Lemma scan_frames_end fuel addr_data offset new_peers :
  (length addr_data ≤ offset)%nat →
  scan_frames fuel addr_data offset new_peers = (new_peers, None).
Proof.
  intros H. destruct fuel; [done|]. cbn [scan_frames].
  destruct (Nat.ltb_spec offset (length addr_data)); [lia|done].
Qed.

Lemma scan_frames_addr fuel addr_data offset new_peers payload peers :
  (offset < length addr_data)%nat →
  parse_message (drop offset addr_data) = Ok (Some (CMD_ADDR, payload)) →
  parse_addr_message payload = Ok peers →
  scan_frames (S fuel) addr_data offset new_peers
  = scan_frames fuel addr_data (offset + (24 + length payload))
                (extend_if new_peers peers).
Proof.
  intros Hlt Hparse Hpeers. cbn [scan_frames].
  destruct (Nat.ltb_spec offset (length addr_data)); [|lia].
  rewrite Hparse. rewrite bool_decide_eq_true_2 by done. by rewrite Hpeers.
Qed.

(** X16: each read of the drain loop scans the receive buffer again from its
    start: when two reads bring one [addr] frame each, the peers of the
    first frame are collected twice, and the session counts them twice
    in [peers_discovered]. *)
Theorem drain_rescans (F1 F2 p1 p2 : bytes) (P1 P2 : list addr) :
  parse_message F1 = Ok (Some (CMD_ADDR, p1)) → length F1 = (24 + length p1)%nat →
  parse_message F2 = Ok (Some (CMD_ADDR, p2)) → length F2 = (24 + length p2)%nat →
  parse_addr_message p1 = Ok P1 → P1 ≠ [] →
  parse_addr_message p2 = Ok P2 →
  drain 8 0 [ReadData F1; ReadData F2] [] [] = (F1 ++ F2, P1 ++ P1 ++ P2).
Proof.
  intros HF1 Hl1 HF2 Hl2 HP1 Hne HP2.
  assert (Hx : ∀ l, P1 ≠ [] → extend_if l P1 = l ++ P1)
    by (intros l ?; by destruct P1).
  assert (Hx2 : ∀ l, extend_if l P2 = l ++ P2).
  { intros l. destruct P2; [by rewrite app_nil_r|done]. }
  (* first read *)
  cbn [drain hd tl].
  destruct F1 as [|b1 F1'] eqn:EF1; [cbn in Hl1; lia|]. rewrite <- EF1 in *.
  cbn [app]. rewrite Hl1 at 1.
  replace (24 + length p1)%nat with (S (23 + length p1)) at 1 by lia.
  rewrite (scan_frames_addr _ F1 0 [] p1 P1) by (try rewrite drop_0; try done; lia).
  rewrite scan_frames_end by lia. rewrite Hx by done. cbn [app].
  rewrite bool_decide_eq_false_2 by done. cbn [negb andb Nat.leb].
  (* second read *)
  destruct F2 as [|b2 F2'] eqn:EF2; [cbn in Hl2; lia|]. rewrite <- EF2 in *.
  rewrite length_app, Hl1.
  replace (24 + length p1 + length F2)%nat
    with (S (S (22 + length p1 + length p2 + 24))) by lia.
  rewrite (scan_frames_addr _ (F1 ++ F2) 0 P1 p1 P1);
    [|rewrite length_app; lia|rewrite drop_0; by apply parse_message_app|done].
  rewrite Hx by done.
  replace (0 + (24 + length p1))%nat with (length F1) by lia.
  rewrite (scan_frames_addr _ (F1 ++ F2) (length F1) (P1 ++ P1) p2 P2);
    [|rewrite length_app; lia|by rewrite drop_app_length|done].
  rewrite scan_frames_end by (rewrite length_app; lia).
  rewrite Hx2.
  replace (negb (bool_decide ((P1 ++ P1) ++ P2 = []))) with true
    by (destruct P1; [done|reflexivity]).
  cbn [andb Nat.leb]. cbn [drain hd tl]. by rewrite <- app_assoc.
Qed.

Lemma drain_rescans_witness :
  drain 8 0 [ReadData one_addr_frame; ReadData one_addr_frame] [] []
  = (one_addr_frame ++ one_addr_frame,
     [("10.7"%string, 8333, 0x12345678)] ++ [("10.7"%string, 8333, 0x12345678)]
     ++ [("10.7"%string, 8333, 0x12345678)]).
Proof.
  apply (drain_rescans one_addr_frame one_addr_frame
           ([x01] ++ twelve_zero_record) ([x01] ++ twelve_zero_record)).
  all: try (vm_compute; reflexivity).
  discriminate.
Defined.

(** * More of the scheduler *)

Section crawl_shape.
Context `{lib : IpAddress}.

Lemma crawl_loop_linked env max_nodes fuel i c trace :
  crawl_loop fuel env i max_nodes c = Some trace →
  head trace = Some c
  ∧ linked (batch_step env max_nodes) trace
  ∧ ∃ final, last trace = Some final ∧ stopped env max_nodes final.
Proof.
  revert i c trace. induction fuel as [|fuel IH]; intros i c trace;
    rewrite crawl_loop_eq.
  - destruct (loop_condition c max_nodes) eqn:Hcond.
    + destruct (select env (S i) c) eqn:Hsel; [|done].
      intros [= <-]. split; [done|]. split; [constructor|].
      exists c. split; [done|]. right. by exists (S i).
    + intros [= <-]. split; [done|]. split; [constructor|].
      exists c. split; [done|]. by left.
  - destruct (loop_condition c max_nodes) eqn:Hcond.
    + destruct (select env (S i) c) as [|ep l] eqn:Hsel.
      * intros [= <-]. split; [done|]. split; [constructor|].
        exists c. split; [done|]. right. by exists (S i).
      * destruct (crawl_loop fuel env (S i) max_nodes _) as [rest|] eqn:Hrest; [|done].
        cbn [mbind option_bind]. intros [= <-].
        destruct (IH _ _ _ Hrest) as (Hhd & Hlinked & final & Hlast & Hstop).
        destruct rest as [|c' rest]; [done|]. injection Hhd as ->.
        split; [done|]. split.
        -- constructor; [|done]. exists (S i). rewrite Hsel. by repeat split.
        -- exists final. by rewrite last_cons_cons.
    + intros [= <-]. split; [done|]. split; [constructor|].
      exists c. split; [done|]. by left.
Qed.

Lemma linked_Forall {A} (R : A → A → Prop) (I : A → Prop) (l : list A) a :
  head l = Some a → I a → (∀ x y, I x → R x y → I y) →
  linked R l → Forall I l.
Proof.
  intros Hhd Ha Hstep Hl. revert a Hhd Ha.
  induction Hl as [x|x y l HR Hl IH]; intros a [= <-] Ha.
  - by constructor.
  - constructor; [done|]. eapply IH; [done|]. by eapply Hstep.
Qed.

Lemma linked_impl {A} (R R' : A → A → Prop) (I : A → Prop) (l : list A) :
  Forall I l → (∀ x y, I x → R x y → R' x y) → linked R l → linked R' l.
Proof.
  intros HI Himpl Hl. induction Hl as [x|x y l HR Hl IH]; [constructor|].
  apply Forall_cons in HI as [Hx HI]. constructor; [by apply Himpl|by apply IH].
Qed.

Lemma begin_batch_all to_crawl c :
  NoDup to_crawl → (∀ ep, ep ∈ to_crawl → ep ∉ crawled_nodes c) →
  (begin_batch c to_crawl).2 = to_crawl
  ∧ node_data (begin_batch c to_crawl).1 = node_data c.
Proof.
  intros Hnd. revert c. induction Hnd as [|ep rest Hnotin Hnd IH]; intros c Hnew;
    cbn [begin_batch]; [done|].
  unfold session_begin.
  rewrite bool_decide_eq_false_2 by (apply Hnew; left).
  destruct (IH (add_crawled c ep)) as [Hb Hn].
  { intros x Hx. cbn. intros [->%elem_of_singleton|Hc]%elem_of_union; [done|].
    by apply (Hnew x); [right|]. }
  destruct (begin_batch (add_crawled c ep) rest) as [c2 begun].
  cbn [fst snd] in *. by rewrite Hb, Hn.
Qed.

Lemma offers_node_data peers c :
  node_data (fold_left offer peers c) = node_data c.
Proof.
  revert c. induction peers as [|[[ip port] ts] peers IH]; intros c; [done|].
  cbn [fold_left]. rewrite IH. unfold offer.
  destruct (negb _); [|done]. by destruct (_ && _).
Qed.

(** The end of a session: [failed] gains the endpoint exactly when the
    session fails in the outer handlers, and [node_data] is untouched. *)
Lemma session_end_failed c ep t :
  failed_nodes (session_end c ep t)
  = (if session_fails t then {[ep]} ∪ failed_nodes c else failed_nodes c)
  ∧ node_data (session_end c ep t) = node_data c.
Proof.
  unfold session_end, session_fails.
  destruct (connect_ok t); cbn [negb orb]; [|done].
  destruct (close_ok t); cbn [negb orb]; [|done].
  destruct (exchange t) as [[payload new_peers]|]; [|done].
  destruct (offers_spec new_peers c) as (_ & _ & ->).
  by rewrite offers_node_data.
Qed.

Lemma sessions_end_failed net eps c :
  let c' := fold_left (λ c ep, session_end c ep (net ep)) eps c in
  (∀ x, x ∈ failed_nodes c' ↔
        x ∈ failed_nodes c ∨ (x ∈ eps ∧ session_fails (net x) = true))
  ∧ node_data c' = node_data c.
Proof.
  revert c. induction eps as [|ep eps IH]; intros c; cbn [fold_left].
  { split; [|done]. intros x. split; [by left|].
    intros [?|[Hx _]]; [done|]. by apply elem_of_nil in Hx. }
  destruct (session_end_failed c ep (net ep)) as [Hf Hn].
  destruct (IH (session_end c ep (net ep))) as [Hf' Hn'].
  split; [|congruence].
  intros x. rewrite Hf', Hf. rewrite elem_of_cons.
  destruct (session_fails (net ep)) eqn:E.
  - rewrite elem_of_union, elem_of_singleton. split.
    + intros [[->|?]|[? ?]]; [right|by left|right]; split; auto.
    + intros [?|[[->|?] ?]]; [left; by right|left; by left|right; by split].
  - split.
    + intros [?|[? ?]]; [by left|right; split; auto].
    + intros [?|[[->|?] ?]]; [by left|congruence|right; by split].
Qed.

(** One batch, in full: what it selects, and what becomes of each of the
    four components of the state. *)
Lemma batch_step_effect env max_nodes c c' :
  environment_wf env → 0 ≤ max_concurrent c → registry_inv c →
  batch_step env max_nodes c c' →
  ∃ batch,
    batch ≠ [] ∧ NoDup batch
    ∧ Z.of_nat (length batch) ≤ max_concurrent c
    ∧ (∀ ep, ep ∈ batch → ep ∈ discovered_nodes c ∧ ep ∉ crawled_nodes c)
    ∧ registry_inv c' ∧ grows c c'
    ∧ crawled_nodes c' = crawled_nodes c ∪ list_to_set batch
    ∧ (∀ x, x ∈ failed_nodes c' ↔
            x ∈ failed_nodes c
            ∨ (x ∈ batch ∧ session_fails (network env x) = true))
    ∧ node_data c'
      = node_data c ++ omap (λ ep, session_return ep (network env ep)) batch.
Proof.
  intros Hwf Hmc Hinv (i & Hcond & Hne & ->).
  destruct (select_spec env i c Hwf Hmc) as (Hnd & Hsel & Hlen).
  set (batch := select env i c) in *.
  destruct (run_batch_spec env i c batch Hwf Hinv) as (Hinv' & Hg & Hc').
  { intros ep Hep. by apply Hsel. }
  exists batch. do 6 (split; [done|]). split; [done|].
  unfold run_batch.
  destruct (begin_batch_all batch c Hnd) as [Hbegun Hn1].
  { intros ep Hep. by apply Hsel. }
  pose proof (begin_batch_spec batch c) as (_ & _ & Hf1 & _ & _).
  destruct (begin_batch c batch) as [c1 begun]. cbn [fst snd] in *. subst begun.
  destruct (sessions_end_failed (network env) (completion env i batch) c1) as [Hf2 Hn2].
  cbn [extend_node_data failed_nodes node_data]. split.
  - intros x. rewrite Hf2, Hf1.
    destruct (Hwf i batch) as [_ Hperm]. by rewrite Hperm.
  - by rewrite Hn2, Hn1.
Qed.

(** The states of a crawl that starts on a fresh crawler. *)
Lemma crawl_trace env mc c seed_nodes max_nodes :
  environment_wf env →
  BitcoinNodeCrawler mc = Ok c →
  ∃ trace final,
    crawl env c seed_nodes max_nodes = Some trace
    ∧ last trace = Some final
    ∧ head trace = Some (fold_left seed seed_nodes c)
    ∧ linked (batch_step env max_nodes) trace
    ∧ stopped env max_nodes final
    ∧ Forall (λ c', registry_inv c' ∧ routable_only c' ∧ max_concurrent c' = mc) trace.
Proof.
  intros Hwf Hc.
  destruct (crawl_spec env mc c seed_nodes max_nodes
              (Z.max 0 (max_nodes + mc - 1)) Hwf Hc)
    as (trace & final & Htrace & Hlast & Hall); [lia|lia|].
  destruct (crawl_loop_linked _ _ _ _ _ _ Htrace)
    as (Hhd & Hlinked & final' & Hlast' & Hstop).
  assert (final' = final) as -> by congruence.
  exists trace, final. do 5 (split; [done|]).
  apply fresh_crawler in Hc as [Hmc ->].
  destruct (seeds_spec seed_nodes (Crawler mc ∅ ∅ [] ∅)) as ((Hm & _ & _) & _ & _).
  assert (Hmcs : Forall (λ c', max_concurrent c' = mc ∧ registry_inv c') trace).
  { eapply linked_Forall; [exact Hhd| | |exact Hlinked].
    - split; [by rewrite Hm|].
      destruct trace as [|c0 trace]; [done|]. injection Hhd as <-.
      apply Forall_cons in Hall as [(Hinv & _) _]. done.
    - intros x y [Hx Hinv] Hstep.
      destruct (batch_step_effect env max_nodes x y Hwf) as (b & Hb); try done; [lia|].
      destruct Hb as (_ & _ & _ & _ & Hinv' & (Hm' & _) & _). split; [congruence|done]. }
  rewrite Forall_forall in Hall, Hmcs. apply Forall_forall. intros x Hx.
  destruct (Hall x Hx) as (? & ? & _). destruct (Hmcs x Hx) as [? _]. done.
Qed.

(** X17: when [max_concurrent] is at least 1, [crawl] returns only once
    [max_nodes] endpoints have been attempted or the frontier is
    exhausted: every discovered endpoint has been attempted. *)
Theorem crawl_stops_when env mc c seed_nodes max_nodes :
  environment_wf env →
  BitcoinNodeCrawler mc = Ok c →
  1 ≤ mc →
  ∃ trace final,
    crawl env c seed_nodes max_nodes = Some trace
    ∧ last trace = Some final
    ∧ (max_nodes ≤ Z.of_nat (size (crawled_nodes final))
       ∨ discovered_nodes final = crawled_nodes final).
Proof.
  intros Hwf Hc Hmc.
  destruct (crawl_trace env mc c seed_nodes max_nodes Hwf Hc)
    as (trace & final & Htrace & Hlast & _ & _ & Hstop & Hall).
  exists trace, final. split; [done|]. split; [done|].
  rewrite Forall_forall in Hall.
  destruct (Hall final (last_Some_elem_of _ _ Hlast)) as ([_ Hcd] & _ & Hm).
  destruct Hstop as [Hcond|[i Hsel]].
  - unfold loop_condition in Hcond. apply andb_false_iff in Hcond as [Hlt|He].
    + left. by apply Z.ltb_ge in Hlt.
    + right. apply negb_false_iff, bool_decide_eq_true in He.
      apply set_eq. intros x. split; [rewrite He; set_solver|apply Hcd].
  - right. unfold select, py_take in Hsel. rewrite Hm in Hsel.
    destruct (Z.leb_spec 0 mc); [|lia].
    destruct (Hwf i (elements (discovered_nodes final ∖ crawled_nodes final)))
      as [Hperm _].
    destruct (listing env i _) as [|x l] eqn:El.
    + symmetry in Hperm. apply Permutation_nil_r in Hperm.
      apply elements_empty_inv in Hperm.
      apply set_eq. intros x. split; [|apply Hcd].
      intros Hx. destruct (decide (x ∈ crawled_nodes final)); [done|].
      exfalso. apply (not_elem_of_empty (C:=gset endpoint) x).
      rewrite <- (leibniz_equiv _ _ Hperm). by apply elem_of_difference.
    + replace (Z.to_nat mc) with (S (Z.to_nat (mc - 1))) in Hsel by lia. done.
Qed.


(** X18: nothing is ever taken out of the sets: from one iteration boundary to
    the next [discovered], [failed] and [node_data] only grow, and
    [crawled] grows by at least one endpoint and at most
    [max_concurrent]. *)
Theorem crawl_sets_grow env mc c seed_nodes max_nodes :
  environment_wf env →
  BitcoinNodeCrawler mc = Ok c →
  ∃ trace,
    crawl env c seed_nodes max_nodes = Some trace
    ∧ linked (λ c c',
        discovered_nodes c ⊆ discovered_nodes c'
        ∧ crawled_nodes c ⊂ crawled_nodes c'
        ∧ failed_nodes c ⊆ failed_nodes c'
        ∧ node_data c `prefix_of` node_data c'
        ∧ Z.of_nat (size (crawled_nodes c'))
          ≤ Z.of_nat (size (crawled_nodes c)) + mc) trace.
Proof.
  intros Hwf Hc.
  destruct (crawl_trace env mc c seed_nodes max_nodes Hwf Hc)
    as (trace & final & Htrace & _ & _ & Hlinked & _ & Hall).
  exists trace. split; [done|].
  apply fresh_crawler in Hc as [Hmc _].
  eapply linked_impl; [exact Hall| |exact Hlinked].
  intros x y (Hinv & _ & Hm) Hstep.
  destruct (batch_step_effect env max_nodes x y Hwf) as (batch & Hb); try done; [lia|].
  destruct Hb as (Hne & Hnd & Hlen & Hsel & _ & (_ & Hd & _) & Hcr & Hf & Hn).
  assert (Hdisj : crawled_nodes x ## list_to_set (C:=gset endpoint) batch).
  { intros e He He'. apply elem_of_list_to_set in He'. by destruct (Hsel e He'). }
  split; [done|]. split; [|split; [|split]].
  - rewrite Hcr. split; [set_solver|].
    destruct batch as [|e batch]; [done|].
    intros Hsub. destruct (Hsel e) as [_ Hnot]; [left|].
    apply Hnot, Hsub. rewrite list_to_set_cons. set_solver.
  - intros e He. apply Hf. by left.
  - rewrite Hn. by apply prefix_app_r.
  - rewrite Hcr, size_union, size_list_to_set by done. lia.
Qed.


End crawl_shape.

Lemma crawl_stops_when_witness :
  ∃ trace final,
    @crawl IPv4.library (tasks_in_order (λ _, refused)) (Crawler 500 ∅ ∅ [] ∅)
           [("1.2.3.4"%string, 8333)] 1000 = Some trace
    ∧ last trace = Some final
    ∧ (1000 ≤ Z.of_nat (size (crawled_nodes final))
       ∨ discovered_nodes final = crawled_nodes final).
Proof.
  apply (@crawl_stops_when IPv4.library _ 500).
  - apply tasks_in_order_wf.
  - reflexivity.
  - lia.
Defined.

Lemma crawl_sets_grow_witness :
  ∃ trace,
    @crawl IPv4.library (tasks_in_order (λ _, refused)) (Crawler 500 ∅ ∅ [] ∅)
           [("1.2.3.4"%string, 8333)] 1000 = Some trace
    ∧ linked (λ c c',
        discovered_nodes c ⊆ discovered_nodes c'
        ∧ crawled_nodes c ⊂ crawled_nodes c'
        ∧ failed_nodes c ⊆ failed_nodes c'
        ∧ node_data c `prefix_of` node_data c'
        ∧ Z.of_nat (size (crawled_nodes c'))
          ≤ Z.of_nat (size (crawled_nodes c)) + 500) trace.
Proof.
  apply (@crawl_sets_grow IPv4.library _ 500).
  - apply tasks_in_order_wf.
  - reflexivity.
Defined.

Section crawl_records.
Context `{lib : IpAddress}.

Lemma seeds_node_data seeds c :
  node_data (fold_left seed seeds c) = node_data c.
Proof.
  revert c. induction seeds as [|s seeds IH]; intros c; [done|].
  cbn [fold_left]. rewrite IH. unfold seed. by destruct (negb _).
Qed.

Lemma session_return_endpoint ep t ni :
  session_return ep t = Some ni →
  ni_endpoint ni = ep ∧ session_fails t = false.
Proof.
  unfold session_return, session_fails.
  destruct (connect_ok t); cbn [negb orb]; [|done].
  destruct (exchange t) as [[payload peers]|]; [|done].
  destruct (close_ok t); [|done]. intros [= <-]. by destruct ep.
Qed.

Lemma omap_cons_eq {A B} (f : A → option B) (x : A) (l : list A) :
  omap f (x :: l) = match f x with Some y => y :: omap f l | None => omap f l end.
Proof. reflexivity. Qed.

Lemma batch_records net (batch : list endpoint) :
  NoDup batch →
  NoDup (map ni_endpoint (omap (λ ep, session_return ep (net ep)) batch))
  ∧ ∀ ni, ni ∈ omap (λ ep, session_return ep (net ep)) batch →
      ni_endpoint ni ∈ batch ∧ session_fails (net (ni_endpoint ni)) = false.
Proof.
  induction 1 as [|ep batch Hnotin Hnd [IHnd IHin]].
  { split; [constructor|]. intros ni Hni. by apply elem_of_nil in Hni. }
  rewrite omap_cons_eq.
  destruct (session_return ep (net ep)) as [ni0|] eqn:E.
  - destruct (session_return_endpoint _ _ _ E) as [Hep Hok].
    cbn [map]. split.
    + constructor; [|done]. rewrite Hep. intros Hin.
      apply list_elem_of_fmap in Hin as (ni & Heq & Hni).
      destruct (IHin ni Hni) as [Hb _]. by rewrite <- Heq in Hb.
    + intros ni [->|Hni]%elem_of_cons.
      * rewrite Hep. split; [left|done].
      * destruct (IHin ni Hni). split; [by right|done].
  - split; [done|]. intros ni Hni.
    destruct (IHin ni Hni). split; [by right|done].
Qed.

Lemma records_inv_step env max_nodes c c' :
  environment_wf env → 0 ≤ max_concurrent c → registry_inv c →
  records_inv c → batch_step env max_nodes c c' → records_inv c'.
Proof.
  intros Hwf Hmc Hinv [Hnd Hrec] Hstep.
  destruct (batch_step_effect env max_nodes c c' Hwf Hmc Hinv Hstep)
    as (batch & _ & Hbnd & _ & Hsel & _ & _ & Hcr & Hf & Hn).
  destruct (batch_records (network env) batch Hbnd) as [Hnew_nd Hnew].
  destruct Hinv as [Hfc _].
  split.
  - rewrite Hn, map_app. apply NoDup_app. split; [done|]. split; [|done].
    intros e He He'.
    apply list_elem_of_fmap in He as (ni & -> & Hni).
    apply list_elem_of_fmap in He' as (ni' & Heq & Hni').
    destruct (Hrec ni Hni) as [Hc _]. destruct (Hnew ni' Hni') as [Hb _].
    rewrite <- Heq in Hb. by destruct (Hsel _ Hb).
  - intros ni. rewrite Hn, elem_of_app, Hcr, Hf. intros [Hni|Hni].
    + destruct (Hrec ni Hni) as [Hc Hnf]. split; [set_solver|].
      intros [?|[Hb _]]; [done|]. by destruct (Hsel _ Hb).
    + destruct (Hnew ni Hni) as [Hb Hok]. split.
      * apply elem_of_union_r. by apply elem_of_list_to_set.
      * intros [Hfail|[_ Hfail]]; [|congruence].
        destruct (Hsel _ Hb) as [_ Hnc]. by apply Hnc, Hfc.
Qed.

(** X19: at every iteration boundary the records of [node_data] are of
    distinct endpoints, each attempted, none marked as failed and each
    with a routable address; so the records and the failed endpoints
    together are no more than the attempted ones. *)
Theorem crawl_records env mc c seed_nodes max_nodes :
  environment_wf env →
  BitcoinNodeCrawler mc = Ok c →
  ∃ trace,
    crawl env c seed_nodes max_nodes = Some trace
    ∧ Forall (λ c',
        NoDup (map ni_endpoint (node_data c'))
        ∧ (∀ ni, ni ∈ node_data c' →
             ni_endpoint ni ∈ crawled_nodes c'
             ∧ (ni_endpoint ni ∉ failed_nodes c')
             ∧ routable (ni_ip ni))
        ∧ (length (node_data c') + size (failed_nodes c')
           ≤ size (crawled_nodes c'))%nat) trace.
Proof.
  intros Hwf Hc.
  destruct (crawl_trace env mc c seed_nodes max_nodes Hwf Hc)
    as (trace & final & Htrace & _ & Hhd & Hlinked & _ & Hall).
  exists trace. split; [done|].
  apply fresh_crawler in Hc as [Hmc ->].
  assert (Hrecs : Forall (λ c', (registry_inv c' ∧ max_concurrent c' = mc)
                                ∧ records_inv c') trace).
  { eapply linked_Forall; [exact Hhd| | |exact Hlinked].
    - destruct trace as [|c0 trace]; [done|]. injection Hhd as ->.
      apply Forall_cons in Hall as [(Hinv & _ & Hm) _].
      split; [done|]. unfold records_inv. rewrite seeds_node_data. cbn.
      split; [constructor|]. intros ni Hni. by apply elem_of_nil in Hni.
    - intros x y [[Hinv Hm] Hr] Hstep.
      destruct (batch_step_effect env max_nodes x y Hwf) as (b & Hb); try done; [lia|].
      destruct Hb as (_ & _ & _ & _ & Hinv' & (Hm' & _) & _).
      split; [split; [done|congruence]|].
      apply (records_inv_step env max_nodes x y); [done|lia|done|done|done]. }
  rewrite Forall_forall in Hall, Hrecs. apply Forall_forall. intros x Hx.
  destruct (Hall x Hx) as ([Hfc Hcd] & Hrout & _).
  destruct (Hrecs x Hx) as [_ [Hnd Hrec]].
  split; [done|]. split.
  - intros ni Hni. destruct (Hrec ni Hni) as [Hcr Hnf].
    split; [done|]. split; [done|]. exact (Hrout _ (Hcd _ Hcr)).
  - rewrite <- (length_map ni_endpoint), <- (size_list_to_set (C:=gset endpoint)) by done.
    rewrite <- size_union.
    + apply subseteq_size. intros e [He|He]%elem_of_union; [|by apply Hfc].
      apply elem_of_list_to_set, list_elem_of_fmap in He as (ni & -> & Hni).
      by destruct (Hrec ni Hni).
    + intros e He Hf.
      apply elem_of_list_to_set, list_elem_of_fmap in He as (ni & -> & Hni).
      by destruct (Hrec ni Hni).
Qed.

(** X20: [crawl] attempts no endpoint at all when [max_nodes] is not positive,
    or [max_concurrent] is zero, or no seed passes the address filter: it
    returns at once, with nothing crawled and no record. *)
Theorem crawl_attempts_nothing env mc c seed_nodes max_nodes :
  BitcoinNodeCrawler mc = Ok c →
  max_nodes ≤ 0 ∨ mc = 0
  ∨ Forall (λ s : endpoint, is_private_ip s.1 = true) seed_nodes →
  ∃ c', crawl env c seed_nodes max_nodes = Some [c']
        ∧ crawled_nodes c' = ∅ ∧ failed_nodes c' = ∅ ∧ node_data c' = [].
Proof.
  intros [Hmc ->]%fresh_crawler Hcase.
  set (c0 := Crawler mc ∅ ∅ [] ∅).
  destruct (seeds_spec seed_nodes c0) as ((Hm & _ & _) & Hc & Hf).
  exists (fold_left seed seed_nodes c0).
  split; [|by rewrite Hc, Hf, seeds_node_data].
  unfold crawl. rewrite crawl_loop_eq.
  set (c1 := fold_left seed seed_nodes c0) in *.
  destruct (loop_condition c1 max_nodes) eqn:Hcond; [|done].
  unfold loop_condition in Hcond. apply andb_true_iff in Hcond as [Hlt Hne].
  apply Z.ltb_lt in Hlt. rewrite Hc in Hlt. cbn in Hlt. rewrite size_empty in Hlt.
  destruct Hcase as [Hn|[Hz|Hpriv]]; [lia| |].
  - unfold select, py_take. rewrite Hm. cbn [max_concurrent c0]. by rewrite Hz.
  - exfalso. apply negb_true_iff, bool_decide_eq_false in Hne. apply Hne.
    clear -Hpriv. subst c1.
    assert (H : ∀ c, discovered_nodes c = ∅ →
                discovered_nodes (fold_left seed seed_nodes c) = ∅).
    { induction Hpriv as [|s seeds Hs _ IH]; intros c Hd; [done|].
      cbn [fold_left]. apply IH. unfold seed. by rewrite Hs. }
    by apply H.
Qed.

End crawl_records.

Lemma crawl_records_witness :
  ∃ trace,
    @crawl IPv4.library (tasks_in_order (λ _, talkative)) (Crawler 500 ∅ ∅ [] ∅)
           [("1.2.3.4"%string, 8333)] 1000 = Some trace
    ∧ Forall (λ c',
        NoDup (map ni_endpoint (node_data c'))
        ∧ (∀ ni, ni ∈ node_data c' →
             ni_endpoint ni ∈ crawled_nodes c'
             ∧ (ni_endpoint ni ∉ failed_nodes c')
             ∧ @routable IPv4.library (ni_ip ni))
        ∧ (length (node_data c') + size (failed_nodes c')
           ≤ size (crawled_nodes c'))%nat) trace.
Proof.
  apply (@crawl_records IPv4.library _ 500).
  - apply tasks_in_order_wf.
  - reflexivity.
Defined.

Lemma crawl_attempts_nothing_witness :
  ∃ c', @crawl IPv4.library (tasks_in_order (λ _, refused)) (Crawler 500 ∅ ∅ [] ∅)
               [("10.0.0.1"%string, 8333); ("not an address"%string, 8333)] 1000
        = Some [c']
        ∧ crawled_nodes c' = ∅ ∧ failed_nodes c' = ∅ ∧ node_data c' = [].
Proof.
  apply (@crawl_attempts_nothing IPv4.library _ 500).
  - reflexivity.
  - right. right. repeat constructor.
Defined.

(** ** What the two-number addresses do to a crawl *)

Lemma parse_addr_shapes data addresses :
  parse_addr_message data = Ok addresses → Forall addr_shape addresses.
Proof.
  unfold parse_addr_message, parse_addr_body.
  destruct (length data <? 1)%nat; [by intros [= <-]|].
  destruct (varint_decode data 0) as [[count offset]|e] eqn:E.
  - cbn [mbind result_mbind result_bind].
    destruct (addr_loop_bounds (Z.to_nat (Z.min count 1000)) data offset [])
      as (more & -> & _ & _ & Hshape).
    by intros [= <-].
  - apply varint_decode_raises in E as ->.
    cbn [mbind result_mbind result_bind]. by intros [= <-].
Qed.

Lemma extend_if_app new_peers peers : extend_if new_peers peers = new_peers ++ peers.
Proof. destruct peers; [by rewrite app_nil_r|done]. Qed.

Lemma scan_frames_shapes fuel addr_data offset new_peers :
  Forall addr_shape new_peers →
  Forall addr_shape (scan_frames fuel addr_data offset new_peers).1.
Proof.
  revert offset new_peers.
  induction fuel as [|fuel IH]; intros offset new_peers Hp; cbn [scan_frames]; [done|].
  destruct (offset <? length addr_data)%nat; [|done].
  destruct (parse_message (drop offset addr_data)) as [[[cmd payload]|]|]; [|done|done].
  destruct (bool_decide (cmd = CMD_ADDR)); [|by apply IH].
  destruct (parse_addr_message payload) as [peers|] eqn:E; [|done].
  apply IH. rewrite extend_if_app. apply Forall_app. split; [done|].
  by eapply parse_addr_shapes.
Qed.

Lemma drain_shapes n attempts reads addr_data new_peers :
  Forall addr_shape new_peers →
  Forall addr_shape (drain n attempts reads addr_data new_peers).2.
Proof.
  revert attempts reads addr_data new_peers.
  induction n as [|n IH]; intros attempts reads addr_data new_peers Hp;
    cbn [drain]; [done|].
  destruct (hd ReadTimeout reads) as [| |[|b chunk]]; try done; try by apply IH.
  pose proof (scan_frames_shapes (length (addr_data ++ b :: chunk))
                (addr_data ++ b :: chunk) 0 new_peers Hp) as Hs.
  destruct (scan_frames _ _ _ _) as [peers [e|]]; [done|].
  destruct (_ && _); [done|by apply IH].
Qed.

Lemma salvage_shapes offsets addr_data peers :
  salvage offsets addr_data = Ok peers → Forall addr_shape peers.
Proof.
  induction offsets as [|start offsets IH]; cbn [salvage]; [by intros [= <-]|].
  destruct (start <? length addr_data)%nat; [|done].
  destruct (parse_message (drop start addr_data)) as [[[cmd payload]|]|];
    cbn [mbind result_mbind result_bind]; [|done|done].
  destruct (bool_decide (cmd = CMD_ADDR)); [|done].
  destruct (parse_addr_message payload) as [ps|] eqn:E;
    cbn [mbind result_mbind result_bind]; [|done].
  destruct ps as [|p ps]; [done|]. intros [= <-]. by eapply parse_addr_shapes.
Qed.

Lemma exchange_shapes t payload new_peers :
  exchange t = Some (payload, new_peers) → Forall addr_shape new_peers.
Proof.
  unfold exchange.
  destruct (expect CMD_VERSION _); [|done]. destruct (expect CMD_VERACK _); [|done].
  pose proof (drain_shapes 8 0 (addr_reads t) [] [] (Forall_nil_2 _)) as Hd.
  destruct (drain 8 0 (addr_reads t) [] []) as [addr_data peers]. cbn [snd] in Hd.
  destruct (_ && _).
  - destruct (salvage _ _) as [more|] eqn:E; [|done]. intros [= _ <-].
    apply Forall_app. split; [done|]. by eapply salvage_shapes.
  - by intros [= _ <-].
Qed.

Section seeds_only.
Context `{lib : IpAddress}.
Hypothesis two_numbers_unparseable :
  ∀ x y : byte, ip_address (dotted [x; y]) = None.

Lemma offer_rejected c peer : addr_shape peer → offer c peer = c.
Proof.
  destruct peer as [[ip port] ts]. intros [(x & y & ->) _].
  unfold offer, is_private_ip. by rewrite two_numbers_unparseable.
Qed.

Lemma session_end_discovered c ep t :
  discovered_nodes (session_end c ep t) = discovered_nodes c.
Proof.
  unfold session_end.
  destruct (negb (connect_ok t)); [done|]. destruct (negb (close_ok t)); [done|].
  destruct (exchange t) as [[payload new_peers]|] eqn:E; [|done].
  apply exchange_shapes in E.
  induction E as [|p ps Hp _ IH] in c |- *; [done|].
  cbn [fold_left]. by rewrite offer_rejected.
Qed.

Lemma batch_step_discovered env max_nodes c c' :
  batch_step env max_nodes c c' → discovered_nodes c' = discovered_nodes c.
Proof.
  intros (i & _ & _ & ->). unfold run_batch.
  pose proof (begin_batch_spec (select env i c) c) as (_ & Hd & _).
  destruct (begin_batch c (select env i c)) as [c1 begun]. cbn [fst snd] in Hd.
  cbn [extend_node_data discovered_nodes]. rewrite <- Hd.
  generalize (completion env i begun). intros eps. clear Hd.
  induction eps as [|ep eps IH] in c1 |- *; [done|].
  cbn [fold_left]. by rewrite IH, session_end_discovered.
Qed.

Lemma seeds_discovered seeds c :
  discovered_nodes (fold_left seed seeds c)
  = list_to_set (filter (λ s : endpoint, is_private_ip s.1 = false) seeds)
    ∪ discovered_nodes c.
Proof.
  revert c. induction seeds as [|s seeds IH]; intros c; cbn [fold_left].
  { set_solver. }
  rewrite IH. unfold seed. destruct (is_private_ip s.1) eqn:E; cbn [negb].
  - by rewrite filter_cons_False by (rewrite E; done).
  - rewrite filter_cons_True by done. rewrite list_to_set_cons. cbn. set_solver.
Qed.

(** X21: with a library that, like CPython's, does not take two numbers
    joined by a dot for an IP address, no peer reported by a session
    passes the address filter: at every iteration boundary [discovered]
    is exactly the set of the seeds that passed it, and the crawl never
    attempts anything but seeds. *)
Theorem crawl_never_leaves_seeds env mc c seed_nodes max_nodes :
  environment_wf env →
  BitcoinNodeCrawler mc = Ok c →
  ∃ trace,
    crawl env c seed_nodes max_nodes = Some trace
    ∧ Forall (λ c',
        discovered_nodes c'
        = list_to_set (filter (λ s : endpoint, is_private_ip s.1 = false) seed_nodes)
        ∧ ∀ ep, ep ∈ crawled_nodes c' → ep ∈ seed_nodes) trace.
Proof.
  intros Hwf Hc.
  destruct (crawl_trace env mc c seed_nodes max_nodes Hwf Hc)
    as (trace & final & Htrace & _ & Hhd & Hlinked & _ & Hall).
  exists trace. split; [done|].
  apply fresh_crawler in Hc as [Hmc ->].
  assert (Hd : Forall (λ c', discovered_nodes c'
      = list_to_set (filter (λ s : endpoint, is_private_ip s.1 = false) seed_nodes))
      trace).
  { eapply linked_Forall; [exact Hhd| | |exact Hlinked].
    - rewrite seeds_discovered. cbn. set_solver.
    - intros x y Hx Hstep. by rewrite (batch_step_discovered _ _ _ _ Hstep). }
  rewrite Forall_forall in Hall, Hd. apply Forall_forall. intros x Hx.
  split; [by apply Hd|]. intros ep Hep.
  destruct (Hall x Hx) as ([_ Hcd] & _ & _). apply Hcd in Hep.
  rewrite (Hd x Hx) in Hep.
  apply elem_of_list_to_set, list_elem_of_filter in Hep. by destruct Hep.
Qed.

End seeds_only.

Lemma all_bytes_complete (b : byte) : In b all_bytes.
Proof.
  rewrite <- (byte_of_Z_val b). pose proof (byte_val_range b).
  apply in_map_iff. exists (Z.to_nat (byte_val b)). split.
  - f_equal. lia.
  - apply in_seq. lia.
Qed.

Lemma ipv4_two_numbers_check :
  forallb (λ x, forallb (λ y,
    match IPv4.parse (dotted [x; y]) with None => true | Some _ => false end)
    all_bytes) all_bytes = true.
Proof. vm_compute. reflexivity. Qed.

(** The IPv4 implementation of the library interface takes no two-number
    string for an address. *)
Lemma ipv4_two_numbers (x y : byte) : IPv4.parse (dotted [x; y]) = None.
Proof.
  pose proof ipv4_two_numbers_check as H.
  rewrite forallb_forall in H. specialize (H x (all_bytes_complete x)).
  rewrite forallb_forall in H. specialize (H y (all_bytes_complete y)).
  by destruct (IPv4.parse (dotted [x; y])).
Defined.

Lemma crawl_never_leaves_seeds_witness :
  ∃ trace,
    @crawl IPv4.library (tasks_in_order (λ _, talkative)) (Crawler 500 ∅ ∅ [] ∅)
           [("1.2.3.4"%string, 8333); ("10.0.0.1"%string, 8333)] 1000 = Some trace
    ∧ Forall (λ c',
        discovered_nodes c'
        = list_to_set
            (filter (λ s : endpoint, @is_private_ip IPv4.library s.1 = false)
                    [("1.2.3.4"%string, 8333); ("10.0.0.1"%string, 8333)])
        ∧ ∀ ep, ep ∈ crawled_nodes c' →
                ep ∈ [("1.2.3.4"%string, 8333); ("10.0.0.1"%string, 8333)]) trace.
Proof.
  apply (@crawl_never_leaves_seeds IPv4.library ipv4_two_numbers _ 500).
  - apply tasks_in_order_wf.
  - reflexivity.
Defined.

(** ** [encode_ip] *)

Section encode_ip.
Context `{txt : PyText}.

(** X12: [encode_ip] on an address whose parts [int] reads as [ip_parts],
    with 64-bit services.  It checks the parts one by one but not their
    number.  With every part in [range(256)] and a 16-bit port it returns
    the services, ten zero bytes, two [0xFF] bytes, one byte per part and
    the port in big-endian order: [22 + len(ip_parts)] bytes, the 26 of
    a network address only for four parts.  A part out of range is a
    [ValueError], whatever the port; a [struct.error] for the port is
    raised only when every part is in range. *)
Theorem encode_ip_cases (services port : Z) (ip : text) (ip_parts : list Z) :
  int_parts ip = Ok ip_parts →
  0 ≤ services < 2 ^ 64 →
  match encode_ip services ip port with
  | Ok a =>
      a = le_bytes 8 services
          ++ map byte_of_Z (replicate 10 0 ++ [255; 255] ++ ip_parts)
          ++ rev (le_bytes 2 port)
      ∧ length a = (22 + length ip_parts)%nat
      ∧ Forall (λ x, 0 ≤ x < 256) ip_parts ∧ 0 ≤ port < 2 ^ 16
  | Raise e =>
      (e = ValueError ∧ ¬ Forall (λ x, 0 ≤ x < 256) ip_parts)
      ∨ (e = StructError ∧ Forall (λ x, 0 ≤ x < 256) ip_parts
         ∧ ¬ (0 ≤ port < 2 ^ 16))
  end.
Proof.
  intros Hparts Hs.
  destruct (decide (Forall (λ x, 0 ≤ x < 256) ip_parts)) as [Hr|Hr].
  - unfold encode_ip. rewrite Hparts. cbn [mbind result_mbind result_bind].
    rewrite py_bytes_ok.
    2:{ apply Forall_app. split; [by repeat constructor|].
        apply Forall_app. split; [by repeat constructor|done]. }
    cbn [mbind result_mbind result_bind].
    rewrite (pack_le_ok 8) by (change (256 ^ Z.of_nat 8) with (2 ^ 64); lia).
    cbn [mbind result_mbind result_bind].
    destruct (decide (0 ≤ port < 2 ^ 16)) as [Hp|Hp].
    + rewrite (pack_be_ok 2) by (change (256 ^ Z.of_nat 2) with (2 ^ 16); lia).
      cbn [mbind result_mbind result_bind].
      split; [done|]. split; [|done].
      rewrite !length_app, length_map, !length_app, length_rev, !le_bytes_length.
      cbn [length replicate]. lia.
    + unfold pack_be. change (256 ^ Z.of_nat 2) with (2 ^ 16).
      destruct (Z.leb_spec 0 port); destruct (Z.ltb_spec port (2 ^ 16));
        cbn [andb mbind result_mbind result_bind]; try lia; by right.
  - unfold encode_ip. rewrite Hparts. cbn [mbind result_mbind result_bind].
    unfold py_bytes.
    destruct (forallb _ _) eqn:E; [|by left].
    exfalso. apply Hr. rewrite forallb_forall in E.
    apply Forall_forall. intros x Hx.
    assert (Hin : In x (replicate 10 0 ++ [255; 255] ++ ip_parts)).
    { apply in_or_app. right. apply in_or_app. right. by apply list_elem_of_In. }
    apply E, andb_true_iff in Hin as [H0%Z.leb_le H1%Z.ltb_lt]. lia.
Qed.

End encode_ip.

(** A part out of range and a port out of range together: the
    [ValueError] of [bytes] comes first. *)
Lemma encode_ip_cases_witness :
  match @encode_ip AsciiText.library 1 "1.2.3.256"%string 70000 with
  | Ok a =>
      a = le_bytes 8 1
          ++ map byte_of_Z (replicate 10 0 ++ [255; 255] ++ [1; 2; 3; 256])
          ++ rev (le_bytes 2 70000)
      ∧ length a = (22 + length [1; 2; 3; 256])%nat
      ∧ Forall (λ x, 0 ≤ x < 256) [1; 2; 3; 256] ∧ 0 ≤ 70000 < 2 ^ 16
  | Raise e =>
      (e = ValueError ∧ ¬ Forall (λ x, 0 ≤ x < 256) [1; 2; 3; 256])
      ∨ (e = StructError ∧ Forall (λ x, 0 ≤ x < 256) [1; 2; 3; 256]
         ∧ ¬ (0 ≤ 70000 < 2 ^ 16))
  end.
Proof.
  apply (@encode_ip_cases AsciiText.library 1 70000 "1.2.3.256"%string
           [1; 2; 3; 256]).
  - reflexivity.
  - lia.
Defined.

(** * [parse_addr_message] on a payload that is cut short *)

Lemma varint_decode_offset data v o :
  varint_decode data 0 = Ok (v, o) → (1 ≤ o ≤ length data)%nat.
Proof.
  rewrite varint_decode_0. destruct data as [|b data]; [done|].
  destruct (byte_val b <? 253); [intros [= _ <-]; cbn; lia|].
  destruct (byte_val b =? 253).
  { destruct (Nat.ltb_spec (length (b :: data)) 3); [done|]. intros [= _ <-]. lia. }
  destruct (byte_val b =? 254).
  { destruct (Nat.ltb_spec (length (b :: data)) 5); [done|]. intros [= _ <-]. lia. }
  destruct (Nat.ltb_spec (length (b :: data)) 9); [done|]. intros [= _ <-]. lia.
Qed.

Lemma complete_records_short (d : bytes) :
  (length d < 30)%nat → complete_records d = [].
Proof. intros H. unfold complete_records. by rewrite Nat.div_small. Qed.

Lemma complete_records_step (d : bytes) :
  (30 ≤ length d)%nat →
  complete_records d = take 30 d :: complete_records (drop 30 d).
Proof.
  intros H. unfold complete_records. rewrite length_drop.
  replace (length d) with ((length d - 30) + 1 * 30)%nat at 1 by lia.
  rewrite Nat.div_add by lia. rewrite Nat.add_1_r. reflexivity.
Qed.

Lemma complete_records_concat (records : list bytes) (partial : bytes) :
  Forall (λ r, length r = 30%nat) records → (length partial < 30)%nat →
  complete_records (concat records ++ partial) = records.
Proof.
  intros Hrec Hp. induction Hrec as [|r records Hr _ IH].
  { cbn. by apply complete_records_short. }
  cbn [concat]. rewrite <- app_assoc.
  rewrite complete_records_step by (rewrite length_app; lia).
  rewrite take_app_length' by done. rewrite drop_app_length' by done.
  by rewrite IH.
Qed.

(** The loop, on any buffer: it goes through the whole records that
    follow the offset, at most [n] of them, and stops. *)
Lemma addr_loop_complete n (pre d : bytes) acc :
  addr_loop n (pre ++ d) (length pre) acc
  = Ok (acc ++ map record_addr
                 (filter (λ r, record_ok r = true) (take n (complete_records d)))).
Proof.
  revert pre d acc. induction n as [|n IH]; intros pre d acc.
  { cbn. by rewrite app_nil_r. }
  destruct (Nat.lt_ge_cases (length d) 30) as [Hs|Hl].
  { rewrite addr_loop_break by (rewrite length_app; lia).
    rewrite complete_records_short by done. cbn. by rewrite app_nil_r. }
  rewrite complete_records_step by done.
  set (r := take 30 d). set (rest := drop 30 d).
  assert (Hd : d = r ++ rest) by (symmetry; apply take_drop).
  assert (Hr : length r = 30%nat) by (unfold r; rewrite length_take; lia).
  rewrite Hd at 1.
  rewrite addr_loop_step by (rewrite !length_app; lia). cbv zeta.
  assert (Hslice : ∀ a b, (b ≤ 30)%nat →
            slice (length pre + a) (length pre + b) (pre ++ r ++ rest) = slice a b r).
  { intros a b Hb. rewrite slice_app_r. apply slice_app_l. lia. }
  rewrite !Hslice by lia.
  replace (slice (length pre) (length pre + 4) (pre ++ r ++ rest))
    with (slice 0 4 r)
    by (rewrite <- (Hslice 0%nat 4%nat) by lia; by rewrite Nat.add_0_r).
  replace (length pre + 30)%nat with (length (pre ++ r))
    by (rewrite length_app; lia).
  rewrite (app_assoc pre r rest). fold (record_ok r).
  cbn [take firstn].
  destruct (record_ok r) eqn:Hok.
  - rewrite IH. rewrite filter_cons_True by done.
    cbn [map]. rewrite <- app_assoc. reflexivity.
  - rewrite IH. rewrite filter_cons_False by (rewrite Hok; done). reflexivity.
Qed.

(** What [parse_addr_message] returns, on every byte string. *)
Lemma parse_addr_message_exact (data : bytes) :
  parse_addr_message data = Ok (addresses_so_far data).
Proof.
  unfold parse_addr_message, parse_addr_body, addresses_so_far.
  destruct (Nat.ltb_spec (length data) 1) as [Hl|Hl].
  { destruct data; [done|cbn in Hl; lia]. }
  destruct (varint_decode data 0) as [[count offset]|e] eqn:E.
  - cbn [mbind result_mbind result_bind].
    apply varint_decode_offset in E as [_ Ho].
    pose proof (addr_loop_complete (Z.to_nat (Z.min count 1000))
                  (take offset data) (drop offset data) []) as Hloop.
    rewrite take_drop, length_take, Nat.min_l in Hloop by lia.
    by rewrite Hloop.
  - apply varint_decode_raises in E as ->. done.
Qed.

Lemma parse_addr_message_cut_count (count : bytes) v j :
  varint_decode count 0 = Ok (v, length count) → (j < length count)%nat →
  parse_addr_message (take j count) = Ok [].
Proof.
  intros Hd Hj. rewrite parse_addr_message_exact. unfold addresses_so_far.
  destruct (varint_decode_take count j) as [->|Heq]; [done|].
  rewrite Hd in Heq. apply varint_decode_offset in Heq as [_ Ho].
  rewrite length_take in Ho. lia.
Qed.

(** C8: [parse_addr_message] never raises, and on any structural error it
    returns the addresses it had parsed up to that point.  On every byte
    string its result is [addresses_so_far]: nothing when the var-int
    count cannot be read, otherwise the addresses of the whole records
    that follow the count.  In particular, when the count announces more
    records than the payload holds and the payload ends in a record
    shorter than 30 bytes, the result is exactly the addresses of the
    whole records before it, and when the count itself is cut the result
    is empty; a payload cut at any point gives a prefix of what the whole
    payload gives.  The session that reads the result completes: the scan
    of the buffer meets no exception, and after a good handshake the
    exchange yields its record whatever the [addr] reads contain. *)
Theorem parse_addr_message_partial (data : bytes) (k : nat) (t : transcript)
    (records : list bytes) (partial : bytes) (n : Z) :
  Forall (λ r, length r = 30%nat) records →
  (length partial < 30)%nat →
  Z.of_nat (length records) ≤ n < 2 ^ 64 →
  parse_addr_message data = Ok (addresses_so_far data)
  ∧ (∃ count,
       varint_encode n = Ok count
       ∧ parse_addr_message (count ++ concat records ++ partial)
         = Ok (map record_addr
                 (filter (λ r, record_ok r = true) (take 1000 records)))
       ∧ ∀ j, (j < length count)%nat → parse_addr_message (take j count) = Ok [])
  ∧ (∃ parsed rest,
       parse_addr_message (take k data) = Ok parsed
       ∧ parse_addr_message data = Ok (parsed ++ rest)
       ∧ match varint_decode (take k data) 0 with
         | Raise _ => parsed = []
         | Ok _ => True
         end)
  ∧ (scan_frames (length data) data 0 []).2 = None
  ∧ match expect CMD_VERSION (version_response t),
          expect CMD_VERACK (verack_response t) with
    | Some version_payload, Some _ =>
        ∃ new_peers, exchange t = Some (version_payload, new_peers)
    | _, _ => True
    end.
Proof.
  intros Hrec Hpartial Hn.
  split; [apply parse_addr_message_exact|]. split.
  { destruct (varint_encode_decode n) as (count & He & Hd); [lia|].
    exists count. split; [done|]. split.
    - rewrite parse_addr_message_exact. unfold addresses_so_far.
      rewrite (varint_decode_more count _ _ _ Hd).
      rewrite drop_app_length, complete_records_concat by done.
      do 2 f_equal.
      destruct (Z.le_gt_cases n 1000).
      + rewrite Z.min_l by lia. by rewrite !take_ge by lia.
      + rewrite Z.min_r by lia. done.
    - intros j Hj. by eapply parse_addr_message_cut_count. }
  split; [apply parse_addr_message_take|].
  split; [apply scan_frames_no_exception|].
  destruct (expect CMD_VERSION (version_response t)) as [v|] eqn:Hv; [|done].
  destruct (expect CMD_VERACK (verack_response t)) as [a|] eqn:Ha; [|done].
  by eapply exchange_completes.
Qed.

(** Two whole records, the second of which passes the test, then two
    bytes of a third, under a count of 5: the one address is returned. *)
Lemma parse_addr_message_partial_witness :
  parse_addr_message s4_payload = Ok (addresses_so_far s4_payload)
  ∧ (∃ count,
       varint_encode 5 = Ok count
       ∧ parse_addr_message
           (count ++ concat [s4_ipv6_record; twelve_zero_record] ++ [x78; x56])
         = Ok (map record_addr
                 (filter (λ r, record_ok r = true)
                         (take 1000 [s4_ipv6_record; twelve_zero_record])))
       ∧ ∀ j, (j < length count)%nat → parse_addr_message (take j count) = Ok [])
  ∧ (∃ parsed rest,
       parse_addr_message (take 40 s4_payload) = Ok parsed
       ∧ parse_addr_message s4_payload = Ok (parsed ++ rest)
       ∧ match varint_decode (take 40 s4_payload) 0 with
         | Raise _ => parsed = []
         | Ok _ => True
         end)
  ∧ (scan_frames (length s4_payload) s4_payload 0 []).2 = None
  ∧ match expect CMD_VERSION (version_response talkative),
          expect CMD_VERACK (verack_response talkative) with
    | Some version_payload, Some _ =>
        ∃ new_peers, exchange talkative = Some (version_payload, new_peers)
    | _, _ => True
    end.
Proof.
  apply (parse_addr_message_partial s4_payload 40 talkative
           [s4_ipv6_record; twelve_zero_record] [x78; x56] 5).
  - repeat constructor.
  - simpl. lia.
  - simpl. lia.
Defined.
